(** * k8s-nameserver: reload pipeline, watch loop and serving loop

    A shallow embedding of [cmd/k8s-nameserver/main.go]: the nameserver
    controller ([updateResolverConfig], [run], [query]) and the part of
    [main] that starts it and serves datagrams.  The resolution engine,
    the JSON decoder, [dnsname.ToFQDN] and [netip.ParseAddr] are outside
    the file and are taken as an interface ([Externals]). *)

From Stdlib Require Import String Ascii List Arith Lia.
From Stdlib Require Import Strings.Byte.
From stdpp Require Import base option list strings gmap fin_maps.

Local Open Scope string_scope.

(** ** Data model *)

(** [dnsname.FQDN] is a Go string type. *)
Abbreviation FQDN := string (only parsing).

(** A Go byte slice.  A nil slice and an empty slice both have length 0 and
    the code only looks at the length, so both are the empty list. *)
Abbreviation bytes := (list byte) (only parsing).

(** [operatorutils.TSHosts]: the decoded configuration file.  A nil Go map
    and an empty one range over nothing and have length 0; both are [∅]. *)
Record TSHosts := { TSHosts_Hosts : gmap string (list string) }.

(** Modelled from the spec: [resolver.Config] is declared in
    [net/dns/resolver], which is not among the sources.  The spec lists the two
    fields the nameserver fills: [Hosts], from FQDN to a list of addresses, and
    [LocalDomains], the suffixes that are never forwarded upstream. *)
Record Config (Addr : Type) := mkConfig {
  Hosts : gmap FQDN (list Addr);
  LocalDomains : list FQDN;
}.
Arguments mkConfig {Addr} _ _.
Arguments Hosts {Addr} _.
Arguments LocalDomains {Addr} _.

(** The collaborators of the controller that live outside [main.go], over
    the types of Go errors, [netip.Addr], [netip.AddrPort] and
    [*net.UDPAddr].  Go functions returning [(T, error)] return a pair whose
    second component is [None] for a nil error. *)
Class Externals (error Addr AddrPort UDPAddr : Type) := {
  json_Unmarshal : bytes -> TSHosts * option error;
  ToFQDN : string -> FQDN * option error;
  ParseAddr : string -> Addr * option error;
  fmt_Errorf : string -> error -> error;
  res_Query : Config Addr -> bytes -> string -> AddrPort -> bytes * option error;
  UDPAddr_AddrPort : UDPAddr -> AddrPort;
}.

Definition tsnetRootDomains : list FQDN := ["ts.net"; "ts.net."].

(** The order in which a [range] over a Go map visits its entries is left
    open by the language and changes from one loop to the next.  Every
    range statement of the model takes the order as an argument. *)
Definition range_order : Type :=
  gmap string (list string) -> list (string * list string).

Definition valid_range (r : range_order) : Prop :=
  forall m, r m ≡ₚ map_to_list m.

Definition rev_range : range_order := fun m => reverse (map_to_list m).

(** A channel of strings as the watch loop sees it: the messages senders
    are offering, or closed. *)
Inductive Chan :=
  | ChOpen (offered : list string)
  | ChClosed.

(** A receive: [None] when it would block; otherwise the value, the [ok]
    flag and the channel afterwards.  A closed channel yields the zero
    value at once, every time. *)
Definition chan_recv (c : Chan) : option (string * bool * Chan) :=
  match c with
  | ChOpen [] => None
  | ChOpen (m :: ms) => Some (m, true, ChOpen ms)
  | ChClosed => Some ("", false, ChClosed)
  end.

Section Nameserver.
Context {error Addr AddrPort UDPAddr : Type}.

(** The call sites of [n.logger] and [logger], with the values they print. *)
Inductive LogMsg :=
  | LogSettingInitial
  | LogUpdated
  | LogExiting
  | LogAttempting
  | LogErrUpdating (e : error)
  | LogErrReading (e : error)
  | LogNoConfig
  | LogErrUnmarshal (e : error)
  | LogNoHostRecords
  | LogInvalidFQDN (fqdn : FQDN) (e : error)
  | LogInvalidAddr (ip : Addr) (e : error)
  | LogListening
  | LogParsingQuery
  | LogErrReadingUDP (e : error)
  | LogErrQuerying (e : error)
  | LogErrWriting (e : error)
  | LogWritten (n : nat).

Inductive Event :=
  | EvLog (m : LogMsg)
  | EvReadConfig                       (* n.configReader() *)
  | EvSetConfig (c : Config Addr)      (* n.res.SetConfig(c) *)
  | EvCancel                           (* cancelF() *)
  | EvSpawnWatch                       (* go func() { ... }() in run *)
  | EvFatal (e : error)                (* log.Fatalf: the process exits *)
  | EvResolveUDPAddr
  | EvListenUDP
  | EvGo (payload : bytes) (addr : UDPAddr)   (* go func() { ... }() in main's loop *)
  | EvWriteToUDP (b : bytes) (to : UDPAddr).

(** The [nameserver] struct together with the process state it runs in.
    [configReader k] is what the [k]-th call of [n.configReader] returns;
    [res] is the configuration the resolver holds; [ctx_done] is the
    cancellation context, which [cancelF] cancels (in [main] and in the
    test both come from one [context.WithCancel]). *)
Record nameserver := mkNS {
  configReader : nat -> bytes * option error;
  configWatcher : Chan;
  res : Config Addr;
  reads : nat;
  ctx_done : bool;
  trace : list Event;
}.

(** ** A state monad over [nameserver] *)

Definition M (A : Type) : Type := nameserver -> A * nameserver.

Definition ret {A} (a : A) : M A := fun n => (a, n).

Definition bind {A B} (c : M A) (k : A -> M B) : M B :=
  fun n => let '(a, n') := c n in k a n'.

Notation "x <- c ; k" := (bind c (fun x => k))
  (at level 20, c at level 100, k at level 200, only parsing).
Notation "c ;;; k" := (bind c (fun _ => k))
  (at level 100, k at level 200, right associativity, only parsing).

Definition emit (e : Event) : M unit := fun n =>
  (tt, mkNS (configReader n) (configWatcher n) (res n) (reads n)
            (ctx_done n) (trace n ++ [e])).

Definition logf (m : LogMsg) : M unit := emit (EvLog m).

Definition call_configReader : M (bytes * option error) := fun n =>
  (configReader n (reads n),
   mkNS (configReader n) (configWatcher n) (res n) (S (reads n))
        (ctx_done n) (trace n ++ [EvReadConfig])).

Definition SetConfig (c : Config Addr) : M unit := fun n =>
  (tt, mkNS (configReader n) (configWatcher n) c (reads n)
            (ctx_done n) (trace n ++ [EvSetConfig c])).

Definition cancelF : M unit := fun n =>
  (tt, mkNS (configReader n) (configWatcher n) (res n) (reads n)
            true (trace n ++ [EvCancel])).

(** ** [updateResolverConfig] *)

Context {Ext : Externals error Addr AddrPort UDPAddr}.

(** The loops of [updateResolverConfig] only fill [c.Hosts]; an early
    return writes one log line and hands back the error.  They return the
    map and, on an early return, that line and the error. *)

(** [for _, ip := range ips { ... c.Hosts[fqdn] = []netip.Addr{ip} }] *)
Fixpoint range_ips (fqdn : FQDN) (ips : list string)
    (hosts : gmap FQDN (list Addr))
    : gmap FQDN (list Addr) * option (LogMsg * error) :=
  match ips with
  | [] => (hosts, None)
  | ip :: ips' =>
      let '(ip, err) := ParseAddr ip in
      match err with
      | Some e => (hosts, Some (LogInvalidAddr ip e, e))
      | None => range_ips fqdn ips' (<[fqdn := [ip]]> hosts)
      end
  end.

(** [for fqdn, ips := range dnsCfg.Hosts { ... }] over the entries in the
    order the range visits them. *)
Fixpoint range_hosts (entries : list (string * list string))
    (hosts : gmap FQDN (list Addr))
    : gmap FQDN (list Addr) * option (LogMsg * error) :=
  match entries with
  | [] => (hosts, None)
  | (fqdn, ips) :: rest =>
      let '(fqdn, err) := ToFQDN fqdn in
      match err with
      | Some e => (hosts, Some (LogInvalidFQDN fqdn e, e))
      | None =>
          match range_ips fqdn ips hosts with
          | (hosts', Some le) => (hosts', Some le)
          | (hosts', None) => range_hosts rest hosts'
          end
      end
  end.

Definition updateResolverConfig (range : range_order) : M (option error) :=
  r <- call_configReader ;
  let '(dnsCfgBytes, err) := r in
  match err with
  | Some e => logf (LogErrReading e) ;;; ret (Some e)
  | None =>
      if (length dnsCfgBytes <? 1)%nat then
        logf LogNoConfig ;;; ret None
      else
        let '(dnsCfg, err) := json_Unmarshal dnsCfgBytes in
        match err with
        | Some e => logf (LogErrUnmarshal e) ;;; ret (Some e)
        | None =>
            (if (size (TSHosts_Hosts dnsCfg) =? 0)%nat
             then logf LogNoHostRecords else ret tt) ;;;
            match range_hosts (range (TSHosts_Hosts dnsCfg)) ∅ with
            | (_, Some (line, e)) => logf line ;;; ret (Some e)
            | (hosts, None) =>
                SetConfig (mkConfig hosts tsnetRootDomains) ;;;
                ret None
            end
        end
  end.

(** ** [run] and its watch loop *)

Definition run (range : range_order) : M (option error) :=
  logf LogSettingInitial ;;;
  err <- updateResolverConfig range ;
  match err with
  | Some e => ret (Some (fmt_Errorf "error updating resolver config: %w" e))
  | None => logf LogUpdated ;;; emit EvSpawnWatch ;;; ret None
  end.

(** The case a [select] of the watch loop takes, with the order of the
    range in the reload it may trigger. *)
Inductive Select :=
  | SelDone                           (* case <-ctx.Done() *)
  | SelConfig (range : range_order).  (* case <-n.configWatcher *)

Inductive Task := Running | Exited.

Definition set_configWatcher (c : Chan) : M unit := fun n =>
  (tt, mkNS (configReader n) c (res n) (reads n) (ctx_done n) (trace n)).

(** One pass through the body of [for { select { ... } }].  A case that
    is not ready cannot be taken: the task stays where it is. *)
Definition watch_iter (sel : Select) : M Task := fun n =>
  match sel with
  | SelDone =>
      if ctx_done n then (logf LogExiting ;;; ret Exited) n
      else (Running, n)
  | SelConfig range =>
      match chan_recv (configWatcher n) with
      | None => (Running, n)
      | Some (_, _, c) =>
          (set_configWatcher c ;;;
           logf LogAttempting ;;;
           err <- updateResolverConfig range ;
           match err with
           | Some e => logf (LogErrUpdating e) ;;; cancelF
           | None => ret tt
           end ;;;
           logf LogUpdated ;;;
           ret Running) n
      end
  end.

(** What happens around the watch task: a sender offers a message on the
    signal channel, the channel is closed, the context is cancelled from
    elsewhere, or the task takes a case of its select. *)
Inductive Step :=
  | EnvSend (msg : string)
  | EnvClose
  | EnvCancel
  | TaskSelect (sel : Select).

Definition env_send (msg : string) : M unit := fun n =>
  match configWatcher n with
  | ChOpen ms => set_configWatcher (ChOpen (ms ++ [msg])) n
  | ChClosed => (tt, n)
  end.

Definition env_cancel : M unit := fun n =>
  (tt, mkNS (configReader n) (configWatcher n) (res n) (reads n)
            true (trace n)).

Definition watch_step (st : Step) (t : Task) : M Task :=
  match st with
  | EnvSend msg => env_send msg ;;; ret t
  | EnvClose => set_configWatcher ChClosed ;;; ret t
  | EnvCancel => env_cancel ;;; ret t
  | TaskSelect sel =>
      match t with
      | Running => watch_iter sel
      | Exited => ret Exited
      end
  end.

Fixpoint watch_loop (sched : list Step) (t : Task) : M Task :=
  match sched with
  | [] => ret t
  | st :: sched' => t' <- watch_step st t ; watch_loop sched' t'
  end.

(** ** [query] and the serving loop of [main] *)

Definition query (payload : bytes) (add : AddrPort)
    : M (bytes * option error) := fun n =>
  (res_Query (res n) payload "udp" add, n).

(** One datagram as [main] meets it: what [conn.ReadMsgUDP] left in the
    buffer and returned, and what [conn.WriteToUDP] will return. *)
Record Datagram := mkDatagram {
  dg_payload : bytes;
  dg_addr : UDPAddr;
  dg_read_err : option error;
  dg_written : nat * option error;
}.

(** The body of the goroutine started for each datagram. *)
Definition handle (d : Datagram) : M unit :=
  r <- query (dg_payload d) (UDPAddr_AddrPort (dg_addr d)) ;
  let '(dnsAnswer, err) := r in
  match err with
  | Some e => logf (LogErrQuerying e)
  | None => ret tt
  end ;;;
  emit (EvWriteToUDP dnsAnswer (dg_addr d)) ;;;
  match dg_written d with
  | (_, Some e) => logf (LogErrWriting e)
  | (k, None) => logf (LogWritten k)
  end.

(** The [for] loop at the end of [main], as the main goroutine runs it:
    every datagram read starts a goroutine with the buffer and the sender,
    and the loop reads on; a failed read ends it.  The goroutines run
    [handle] on their own, each in the state it finds when it runs. *)
Fixpoint serve (ins : list Datagram) : M unit :=
  match ins with
  | [] => ret tt
  | d :: rest =>
      logf LogParsingQuery ;;;
      match dg_read_err d with
      | Some e => logf (LogErrReadingUDP e)
      | None => emit (EvGo (dg_payload d) (dg_addr d)) ;;; serve rest
      end
  end.

(** How the start-up of [main] ends: in [log.Fatalf], or at the serving
    loop. *)
Inductive Proc := ProcFatal | ProcServing.

Definition log_Fatalf (e : error) : M Proc :=
  emit (EvFatal e) ;;; ret ProcFatal.

(** [main] from [ns.run(ctx, cancel)] to the start of the serving loop;
    [resolve_err] and [listen_err] are what [net.ResolveUDPAddr] and
    [net.ListenUDP] return. *)
Definition main_start (range : range_order)
    (resolve_err listen_err : option error) : M Proc :=
  err <- run range ;
  match err with
  | Some e => log_Fatalf e
  | None =>
      emit EvResolveUDPAddr ;;;
      match resolve_err with
      | Some e => log_Fatalf e
      | None =>
          emit EvListenUDP ;;;
          match listen_err with
          | Some e => log_Fatalf e
          | None => logf LogListening ;;; ret ProcServing
          end
      end
  end.

(** The main goroutine from [ns.run(ctx, cancel)] on: the start-up and,
    once the listener is there, the serving loop over the datagrams
    [ins]. *)
Definition main (range : range_order) (resolve_err listen_err : option error)
    (ins : list Datagram) : M Proc :=
  p <- main_start range resolve_err listen_err ;
  match p with
  | ProcFatal => ret ProcFatal
  | ProcServing => serve ins ;;; ret ProcServing
  end.

(** ** Reading a run off the trace *)

(** The events a computation added to the trace. *)
Definition new_events (n n' : nameserver) : list Event :=
  drop (length (trace n)) (trace n').

(** The configurations handed to [SetConfig], in order. *)
Definition set_configs (evs : list Event) : list (Config Addr) :=
  omap (fun e => match e with EvSetConfig c => Some c | _ => None end) evs.

(** How often the reader was called. *)
Definition count_reads (evs : list Event) : nat :=
  length (omap (fun e => match e with EvReadConfig => Some tt | _ => None end) evs).

(** ** Vocabulary of the statements *)

Definition name_ok (name : string) : bool :=
  match snd (ToFQDN name) with None => true | Some _ => false end.

Definition ip_ok (ip : string) : bool :=
  match snd (ParseAddr ip) with None => true | Some _ => false end.

(** An entry of the decoded file that passes both checks of the loop. *)
Definition entry_ok (entry : string * list string) : bool :=
  name_ok (fst entry) && forallb ip_ok (snd entry).

(** The raw configuration cannot be applied: it has bytes, and either they
    do not decode or some entry fails a check. *)
Definition invalid_input (b : bytes) : Prop :=
  b <> [] /\
  (snd (json_Unmarshal b) <> None \/
   exists name ips,
     TSHosts_Hosts (fst (json_Unmarshal b)) !! name = Some ips /\
     entry_ok (name, ips) = false).

(** The next reload of [n] fails: the reader reports an error, or what it
    returns is invalid. *)
Definition reload_fails (n : nameserver) : Prop :=
  snd (configReader n (reads n)) <> None \/
  invalid_input (fst (configReader n (reads n))).

(** The record an entry leaves in [c.Hosts]: none for an empty array, else
    its name's FQDN with the last address of the array. *)
Definition entry_record (entry : string * list string)
    : option (FQDN * Addr) :=
  match last (snd entry) with
  | Some ip => Some (fst (ToFQDN (fst entry)), fst (ParseAddr ip))
  | None => None
  end.

Definition put_record (hosts : gmap FQDN (list Addr))
    (entry : string * list string) : gmap FQDN (list Addr) :=
  match entry_record entry with
  | Some (fqdn, ip) => <[fqdn := [ip]]> hosts
  | None => hosts
  end.

(** The addresses written under [fqdn], in the order of the range. *)
Definition writes (fqdn : FQDN) (entries : list (string * list string))
    : list Addr :=
  omap (fun entry =>
          match entry_record entry with
          | Some (f, ip) => if decide (f = fqdn) then Some ip else None
          | None => None
          end) entries.

(** No two names of the file that have addresses share an FQDN. *)
Definition collision_free (m : gmap string (list string)) : Prop :=
  forall name1 ips1 name2 ips2,
    m !! name1 = Some ips1 -> m !! name2 = Some ips2 ->
    ips1 <> [] -> ips2 <> [] ->
    fst (ToFQDN name1) = fst (ToFQDN name2) -> name1 = name2.

(** The line logged for a decoded file without records. *)
Definition no_records_line (cfg : TSHosts) : list Event :=
  if (size (TSHosts_Hosts cfg) =? 0)%nat then [EvLog LogNoHostRecords] else [].

(** The five ways through [updateResolverConfig]: the error returned, the
    configuration the resolver holds afterwards and the events after the
    call of the reader. *)
Inductive Reloaded (r : range_order) (n : nameserver)
    : option error -> Config Addr -> list Event -> Prop :=
  | Reloaded_read_failed b e :
      configReader n (reads n) = (b, Some e) ->
      Reloaded r n (Some e) (res n) [EvLog (LogErrReading e)]
  | Reloaded_no_config b :
      configReader n (reads n) = (b, None) ->
      length b < 1 ->
      Reloaded r n None (res n) [EvLog LogNoConfig]
  | Reloaded_decode_failed b cfg e :
      configReader n (reads n) = (b, None) ->
      1 <= length b ->
      json_Unmarshal b = (cfg, Some e) ->
      Reloaded r n (Some e) (res n) [EvLog (LogErrUnmarshal e)]
  | Reloaded_invalid b cfg hosts line e :
      configReader n (reads n) = (b, None) ->
      1 <= length b ->
      json_Unmarshal b = (cfg, None) ->
      range_hosts (r (TSHosts_Hosts cfg)) ∅ = (hosts, Some (line, e)) ->
      Reloaded r n (Some e) (res n) (no_records_line cfg ++ [EvLog line])
  | Reloaded_applied b cfg hosts :
      configReader n (reads n) = (b, None) ->
      1 <= length b ->
      json_Unmarshal b = (cfg, None) ->
      range_hosts (r (TSHosts_Hosts cfg)) ∅ = (hosts, None) ->
      Reloaded r n None (mkConfig hosts tsnetRootDomains)
        (no_records_line cfg ++ [EvSetConfig (mkConfig hosts tsnetRootDomains)]).

(** The events [run] adds after the reload: none when it failed, else the
    line of success and the start of the watch task. *)
Definition run_tail (err : option error) : list Event :=
  match err with
  | Some _ => []
  | None => [EvLog LogUpdated; EvSpawnWatch]
  end.

(** The events of a reload after the call of the reader: log lines and
    calls of [SetConfig]. *)
Definition is_reload_event (e : Event) : bool :=
  match e with
  | EvLog _ | EvSetConfig _ => true
  | _ => false
  end.

(** The events a pass of the watch loop adds after its reload: on failure
    the error line, the call of [cancelF] and, the branch having no
    [return], the line of success all the same. *)
Definition iter_tail (err : option error) : list Event :=
  match err with
  | Some e => [EvLog (LogErrUpdating e); EvCancel; EvLog LogUpdated]
  | None => [EvLog LogUpdated]
  end.

(** What the goroutine of a datagram writes, and to whom, when the
    resolver holds [c] as it runs. *)
Definition answer (c : Config Addr) (d : Datagram) : bytes * UDPAddr :=
  (fst (res_Query c (dg_payload d) "udp" (UDPAddr_AddrPort (dg_addr d))),
   dg_addr d).

(** The datagrams the serving loop starts a goroutine for: those before
    the first failed read. *)
Fixpoint served (ins : list Datagram) : list Datagram :=
  match ins with
  | [] => []
  | d :: rest =>
      match dg_read_err d with
      | Some _ => []
      | None => d :: served rest
      end
  end.

(** The goroutines started by the serving loop, in order: the buffer and
    the sender each was given. *)
Definition gos_of (evs : list Event) : list (bytes * UDPAddr) :=
  omap (fun e => match e with EvGo payload addr => Some (payload, addr) | _ => None end) evs.

(** The buffer and the sender of a datagram. *)
Definition go_of (d : Datagram) : bytes * UDPAddr :=
  (dg_payload d, dg_addr d).

(** The calls of [conn.WriteToUDP], in order: the bytes and the address. *)
Definition writes_of (evs : list Event) : list (bytes * UDPAddr) :=
  omap (fun e => match e with EvWriteToUDP b to => Some (b, to) | _ => None end) evs.

(** ** The rest of [main]: the file reader and the file watch *)

Definition defaultDNSFile : string := "dns.json".


(** The [configReader] closure of [main], on what [os.ReadFile] returned
    for the configuration file; [IsNotExist] is [os.IsNotExist]. *)
Definition fileConfigReader (IsNotExist : error -> bool)
    (read : bytes * option error) : bytes * option error :=
  let '(contents, err) := read in
  match err with
  | None => (contents, None)
  | Some e => if IsNotExist e then ([], None) else ([], Some e)
  end.







(** ** More vocabulary *)






(** The messages senders are still offering on a channel. *)
Definition chan_pending (c : Chan) : nat :=
  match c with
  | ChOpen ms => length ms
  | ChClosed => 0
  end.

(** The sends of a schedule. *)
Definition count_sends (sched : list Step) : nat :=
  length (omap (fun st => match st with EnvSend _ => Some tt | _ => None end) sched).

(** A configuration as the reload builds it: the built-in local domains,
    and one address under every FQDN. *)
Definition wf_config (c : Config Addr) : Prop :=
  LocalDomains c = tsnetRootDomains /\
  forall fqdn addrs, Hosts c !! fqdn = Some addrs -> length addrs = 1.

(** The events the start-up of [main] adds after the first reload, and how
    it ends. *)
Definition start_tail (err resolve_err listen_err : option error)
    : list Event * Proc :=
  match err with
  | Some e =>
      ([EvFatal (fmt_Errorf "error updating resolver config: %w" e)], ProcFatal)
  | None =>
      match resolve_err with
      | Some e =>
          ([EvLog LogUpdated; EvSpawnWatch; EvResolveUDPAddr; EvFatal e],
           ProcFatal)
      | None =>
          match listen_err with
          | Some e =>
              ([EvLog LogUpdated; EvSpawnWatch; EvResolveUDPAddr; EvListenUDP;
                EvFatal e], ProcFatal)
          | None =>
              ([EvLog LogUpdated; EvSpawnWatch; EvResolveUDPAddr; EvListenUDP;
                EvLog LogListening], ProcServing)
          end
      end
  end.

(** The names of a decoded file that leave a record under [fqdn]. *)
Definition names_of (cfg : TSHosts) (fqdn : FQDN) : Prop :=
  exists name ips,
    TSHosts_Hosts cfg !! name = Some ips /\ ips <> [] /\
    fst (ToFQDN name) = fqdn.

End Nameserver.

(** ** An instance of the interface, for closed examples

    The examples below run the controller on concrete configuration files.
    They need the collaborators as functions that compute; this module
    supplies small ones that agree with the real ones on the documents,
    names and literals the examples use. *)
Module Sample.

Definition dquote : ascii := ascii_of_nat 34.
Definition backslash : ascii := ascii_of_nat 92.

(** [q s] is [s] between double quotes. *)
Definition q (s : string) : string :=
  String dquote EmptyString ++ s ++ String dquote EmptyString.

Inductive Token :=
  | TLBrace | TRBrace | TLBrack | TRBrack | TColon | TComma
  | TStr (s : string).

(** Tokens of a JSON text; [cur] holds the string literal being read.
    Escapes, numbers and the literals [true], [false] and [null] are
    refused. *)
Fixpoint lex (s : string) (cur : option string) : option (list Token) :=
  match s with
  | EmptyString => match cur with None => Some [] | Some _ => None end
  | String c s' =>
      match cur with
      | Some acc =>
          if Ascii.eqb c dquote then cons (TStr acc) <$> lex s' None
          else if Ascii.eqb c backslash then None
          else lex s' (Some (acc ++ String c EmptyString))
      | None =>
          if Ascii.eqb c dquote then lex s' (Some EmptyString)
          else if Ascii.eqb c "{" then cons TLBrace <$> lex s' None
          else if Ascii.eqb c "}" then cons TRBrace <$> lex s' None
          else if Ascii.eqb c "[" then cons TLBrack <$> lex s' None
          else if Ascii.eqb c "]" then cons TRBrack <$> lex s' None
          else if Ascii.eqb c ":" then cons TColon <$> lex s' None
          else if Ascii.eqb c "," then cons TComma <$> lex s' None
          else if Ascii.eqb c " " then lex s' None
          else if Ascii.eqb c (ascii_of_nat 10) then lex s' None
          else if Ascii.eqb c (ascii_of_nat 9) then lex s' None
          else if Ascii.eqb c (ascii_of_nat 13) then lex s' None
          else None
      end
  end.

(** Where the decoder stands in [{"hosts": {name: [ip, ...], ...}}]. *)
Inductive PState :=
  | PStart                                   (* before the outer brace *)
  | PTop                                     (* after it: "hosts" or } *)
  | PTopColon
  | PHostsOpen
  | PKeyOrClose                              (* a name or } *)
  | PKey                                     (* a name, after a comma *)
  | PColon (name : string)
  | PArrOpen (name : string)
  | PIpOrClose (name : string)               (* an address or ] *)
  | PIp (name : string) (ips : list string)  (* an address, after a comma *)
  | PIpSep (name : string) (ips : list string)
  | PEntrySep                                (* , or } after an array *)
  | PTopClose
  | PEnd.

Fixpoint parse (ts : list Token) (st : PState)
    (m : gmap string (list string)) : option (gmap string (list string)) :=
  match ts with
  | [] => match st with PEnd => Some m | _ => None end
  | t :: ts' =>
      match st, t with
      | PStart, TLBrace => parse ts' PTop m
      | PTop, TRBrace => parse ts' PEnd m
      | PTop, TStr k => if String.eqb k "hosts" then parse ts' PTopColon m else None
      | PTopColon, TColon => parse ts' PHostsOpen m
      | PHostsOpen, TLBrace => parse ts' PKeyOrClose m
      | PKeyOrClose, TRBrace => parse ts' PTopClose m
      | PKeyOrClose, TStr k => parse ts' (PColon k) m
      | PKey, TStr k => parse ts' (PColon k) m
      | PColon k, TColon => parse ts' (PArrOpen k) m
      | PArrOpen k, TLBrack => parse ts' (PIpOrClose k) m
      | PIpOrClose k, TRBrack => parse ts' PEntrySep (<[k := []]> m)
      | PIpOrClose k, TStr ip => parse ts' (PIpSep k [ip]) m
      | PIp k ips, TStr ip => parse ts' (PIpSep k (ips ++ [ip])) m
      | PIpSep k ips, TComma => parse ts' (PIp k ips) m
      | PIpSep k ips, TRBrack => parse ts' PEntrySep (<[k := ips]> m)
      | PEntrySep, TComma => parse ts' PKey m
      | PEntrySep, TRBrace => parse ts' PTopClose m
      | PTopClose, TRBrace => parse ts' PEnd m
      | _, _ => None
      end
  end.

(** Stands for [json.Unmarshal(b, &TSHosts{})]: it decodes documents of
    the shape [{"hosts": {name: [ip, ...], ...}}] (a repeated name keeps
    its last array, as in Go) and reports a syntax error for every other
    text. *)
Definition json_Unmarshal (b : list byte) : TSHosts * option string :=
  match lex (string_of_list_byte b) None ≫= (fun ts => parse ts PStart ∅) with
  | Some m => (Build_TSHosts m, None)
  | None => (Build_TSHosts ∅, Some "invalid character")
  end.

(** [split_dot s cur]: the pieces of [cur ++ s] between dots. *)
Fixpoint split_dot (s : string) (cur : string) : list string :=
  match s with
  | EmptyString => [cur]
  | String c s' =>
      if Ascii.eqb c "." then cur :: split_dot s' EmptyString
      else split_dot s' (cur ++ String c EmptyString)
  end.

Definition ends_with_dot (s : string) : bool :=
  match last (split_dot s EmptyString) with
  | Some EmptyString => match s with EmptyString => false | _ => true end
  | _ => false
  end.

Definition bad_label (l : string) : bool :=
  (String.length l =? 0)%nat || (63 <? String.length l)%nat.

(** Modelled from the spec: [dnsname.ToFQDN] is in [util/dnsname], which
    is not among the sources.  The spec says a hostname is normalised to
    FQDN form, the trailing dot enforced, and that normalisation can fail.
    Here a name gets the dot when it lacks one, and a name with an empty
    or over-long label before a dot, or longer than 253 bytes, is
    refused. *)
Definition ToFQDN (s : string) : string * option string :=
  if String.eqb s "" || String.eqb s "." then (".", None) else
  let s := match s with
           | String c s' => if Ascii.eqb c "." then s' else s
           | EmptyString => s
           end in
  let total := if ends_with_dot s then String.length s else S (String.length s) in
  if (253 <? total)%nat then ("", Some "is too long to be a DNS name") else
  let body := if ends_with_dot s
              then String.substring 0 (String.length s - 1) s else s in
  let labels := split_dot body EmptyString in
  if existsb bad_label (removelast labels)
  then ("", Some "is not a valid DNS label")
  else (if ends_with_dot s then s else s ++ ".", None).

Inductive IP := IPv4 (a b c d : nat).

Definition digit (c : ascii) : option nat :=
  let k := nat_of_ascii c in
  if (48 <=? k)%nat && (k <=? 57)%nat then Some (k - 48) else None.

Fixpoint decimal (s : string) (acc : nat) : option nat :=
  match s with
  | EmptyString => Some acc
  | String c s' => digit c ≫= (fun d => decimal s' (10 * acc + d))
  end.

(** A field of a dotted quad: one to three digits, no leading zero, at
    most 255. *)
Definition octet (s : string) : option nat :=
  match s with
  | EmptyString => None
  | String c s' =>
      if Ascii.eqb c "0" && negb (String.eqb s' "") then None
      else if (3 <? String.length s)%nat then None
      else decimal s 0 ≫= (fun k => if (k <=? 255)%nat then Some k else None)
  end.

(** Stands for [netip.ParseAddr] on dotted-quad IPv4 literals; every other
    string is refused. *)
Definition ParseAddr (s : string) : IP * option string :=
  match split_dot s EmptyString with
  | [a; b; c; d] =>
      match octet a, octet b, octet c, octet d with
      | Some a, Some b, Some c, Some d => (IPv4 a b c d, None)
      | _, _, _, _ => (IPv4 0 0 0 0, Some "unable to parse IP")
      end
  | _ => (IPv4 0 0 0 0, Some "unable to parse IP")
  end.

(** Stands for [fmt.Errorf] with a format ending in [%w]. *)
Definition fmt_Errorf (format : string) (e : string) : string :=
  String.substring 0 (String.length format - 2) format ++ e.

Definition byte_of_nat (k : nat) : byte :=
  match Byte.of_nat k with Some b => b | None => x00 end.

(** Stands for the resolution engine: the payload is the name asked for,
    the answer the four bytes of its first address; an unknown name gets
    an empty answer and an error. *)
Definition res_Query (c : Config IP) (payload : list byte) (transport : string)
    (from : IP * nat) : list byte * option string :=
  match Hosts c !! string_of_list_byte payload with
  | Some (IPv4 a b c d :: _) =>
      ([byte_of_nat a; byte_of_nat b; byte_of_nat c; byte_of_nat d], None)
  | _ => ([], Some "no such host")
  end.

#[global] Instance externals : Externals string IP (IP * nat) (IP * nat) :=
  Build_Externals string IP (IP * nat) (IP * nat)
    json_Unmarshal ToFQDN ParseAddr fmt_Errorf res_Query (fun a => a).

(** The configuration of the repository's test. *)
Definition hostConfig : list byte :=
  list_byte_of_string
    ("{" ++ q "hosts" ++ ":{" ++ q "foo.bar.ts.net." ++ ": [" ++ q "10.20.30.40" ++ "]}}").

(** The text [{"hosts":{name:[ip,...],...}}] of a list of entries. *)
Definition json_array (ips : list string) : string :=
  "[" ++ String.concat "," (map q ips) ++ "]".

Definition json_hosts (entries : list (string * list string)) : list byte :=
  list_byte_of_string
    ("{" ++ q "hosts" ++ ":{" ++
     String.concat "," (map (fun e => q (fst e) ++ ":" ++ json_array (snd e)) entries) ++
     "}}").

(** One good entry and one whose address is no IP literal. *)
Definition bad_ip_config : list byte :=
  json_hosts [("good.ts.net.", ["10.0.0.1"]); ("bad.ts.net.", ["10.0.0.256"])].

(** A name with two addresses. *)
Definition two_ips_config : list byte :=
  json_hosts [("a.ts.net.", ["1.1.1.1"; "2.2.2.2"])].

(** Two names of one FQDN: with and without the trailing dot. *)
Definition collide_config : list byte :=
  json_hosts [("a.ts.net", ["1.1.1.1"; "2.2.2.2"]); ("a.ts.net.", ["3.3.3.3"])].

(** A name without addresses beside one with an address. *)
Definition empty_array_config : list byte :=
  json_hosts [("a.ts.net.", []); ("b.ts.net.", ["1.1.1.1"])].

(** A name without addresses that is no FQDN: its second label is empty. *)
Definition bad_name_config : list byte :=
  json_hosts [("a..b", [])].

(** A reader of a file that never changes. *)
Definition always (b : list byte) : nat -> list byte * option string :=
  fun _ => (b, None).

(** A reader of a file that is there at the first call and gone after. *)
Definition deleted_after_first (b : list byte)
    : nat -> list byte * option string :=
  fun k => match k with 0 => (b, None) | S _ => ([], None) end.

(** A nameserver as [main] builds it: nothing read yet, the signal
    channel open and idle, the context live, and the resolver holding
    [c]. *)
Definition fresh (reader : nat -> list byte * option string) (c : Config IP)
    : @nameserver string IP (IP * nat) :=
  mkNS reader (ChOpen []) c 0 false [].

(** A configuration without hosts and without local domains, for a
    resolver to which nothing was applied yet. *)
Definition no_config : Config IP := mkConfig ∅ [].

(** A nameserver at its watch loop: the state of the signal channel and of
    the context given. *)
Definition watching (reader : nat -> list byte * option string) (ch : Chan)
    (c : Config IP) (done : bool) : @nameserver string IP (IP * nat) :=
  mkNS reader ch c 0 done [].

(** A datagram asking for [name] from 10.40.30.20, port 0; its reply is
    written without error. *)
Definition asking (name : string) : @Datagram string (IP * nat) :=
  mkDatagram (list_byte_of_string name) (IPv4 10 40 30 20, 0) None (4, None).

(** The cases the selects of a watch loop try, one after the other: [true]
    for [ctx.Done()], [false] for the signal channel. *)
Definition tries (picks : list bool) : list Step :=
  map (fun p : bool =>
         TaskSelect (if p then SelDone else SelConfig map_to_list)) picks.

(** Stands for [os.IsNotExist] on the errors of the examples. *)
Definition IsNotExist (e : string) : bool :=
  String.eqb e "no such file or directory".

(** The reader of [main] over a file that [os.ReadFile] reads as [read]
    every time. *)
Definition file_reader (read : list byte * option string)
    : nat -> list byte * option string :=
  fun _ => fileConfigReader IsNotExist read.

(** A second file, as in the repository's test. *)
Definition newHostConfig : list byte :=
  json_hosts [("baz.bar.ts.net.", ["10.40.30.20"])].

(** A reader that finds [first] at its first call and [later] after. *)
Definition replaced_after_first (first later : list byte)
    : nat -> list byte * option string :=
  fun k => match k with 0 => (first, None) | S _ => (later, None) end.

End Sample.

(** * Facts about the loops and the reload *)

Local Open Scope list_scope.

Section Facts.
Context {error Addr AddrPort UDPAddr : Type}.
Context {Ext : Externals error Addr AddrPort UDPAddr}.

Implicit Types (r : range_order) (b : list byte).
Implicit Types (n : @nameserver error Addr UDPAddr).
Implicit Types (evs : list (@Event error Addr UDPAddr)).
Implicit Types (hosts : gmap string (list Addr)).
Implicit Types (entries : list (string * list string)).

Lemma forallb_false_ex {A} (f : A -> bool) (l : list A) :
  forallb f l = false -> exists x, x ∈ l /\ f x = false.
Proof.
  induction l as [|x l IH]; [done|]. simpl.
  destruct (f x) eqn:Hx; simpl.
  - intros (y & Hy & Hfy)%IH. exists y. split; [by right|done].
  - intros _. exists x. split; [by left|done].
Qed.

(** ** The inner loop *)

Lemma range_ips_ok fqdn ips hosts :
  forallb ip_ok ips = true ->
  range_ips fqdn ips hosts =
    (match last ips with
     | Some ip => <[fqdn := [fst (ParseAddr ip)]]> hosts
     | None => hosts
     end, None).
Proof.
  revert hosts. induction ips as [|ip ips IH]; intros hosts Hok; [done|].
  simpl in Hok. apply andb_prop in Hok as [Hip Hips].
  unfold ip_ok in Hip. simpl.
  destruct (ParseAddr ip) as [a [e|]] eqn:Hp; [done|]. simpl in *.
  rewrite IH by done.
  destruct ips as [|ip' ips]; [simpl; by rewrite Hp|].
  rewrite last_cons_cons.
  destruct (last (ip' :: ips)) eqn:Hlast; [by rewrite insert_insert_eq|].
  by apply last_None in Hlast.
Qed.

Lemma range_ips_bad fqdn ips hosts :
  forallb ip_ok ips = false ->
  exists hosts' line e, range_ips fqdn ips hosts = (hosts', Some (line, e)).
Proof.
  revert hosts. induction ips as [|ip ips IH]; intros hosts Hbad; [done|].
  simpl in *. unfold ip_ok in Hbad at 1.
  destruct (ParseAddr ip) as [a [e|]]; simpl in *; eauto.
Qed.

(** ** The outer loop *)

Lemma range_hosts_ok entries hosts :
  forallb entry_ok entries = true ->
  range_hosts entries hosts = (foldl put_record hosts entries, None).
Proof.
  revert hosts.
  induction entries as [|[name ips] entries IH]; intros hosts Hok; [done|].
  simpl in Hok. apply andb_prop in Hok as [Hentry Hrest].
  unfold entry_ok in Hentry. simpl in Hentry.
  apply andb_prop in Hentry as [Hname Hips].
  unfold name_ok in Hname. simpl.
  unfold put_record at 2, entry_record. simpl.
  destruct (ToFQDN name) as [fqdn [e|]]; [done|]. simpl.
  rewrite range_ips_ok by done.
  rewrite IH by done. by destruct (last ips).
Qed.

Lemma range_hosts_bad entries hosts :
  forallb entry_ok entries = false ->
  exists hosts' line e, range_hosts entries hosts = (hosts', Some (line, e)).
Proof.
  revert hosts.
  induction entries as [|[name ips] entries IH]; intros hosts Hbad; [done|].
  simpl in Hbad. simpl.
  destruct (entry_ok (name, ips)) eqn:Hentry; simpl in Hbad.
  - unfold entry_ok in Hentry. simpl in Hentry.
    apply andb_prop in Hentry as [Hname Hips]. unfold name_ok in Hname.
    destruct (ToFQDN name) as [fqdn [e|]]; [done|].
    rewrite range_ips_ok by done. by apply IH.
  - unfold entry_ok, name_ok in Hentry. simpl in Hentry.
    destruct (ToFQDN name) as [fqdn [e|]]; simpl in *; [by eauto|].
    destruct (range_ips_bad fqdn ips hosts Hentry) as (h' & line & e & ->).
    eauto.
Qed.

(** An entry fails the checks when its name is no FQDN or one of its
    addresses is no IP literal. *)
Lemma entry_ok_false name ips :
  entry_ok (name, ips) = false <->
  snd (ToFQDN name) <> None \/
  exists ip, ip ∈ ips /\ snd (ParseAddr ip) <> None.
Proof.
  unfold entry_ok, name_ok. simpl. split.
  - destruct (snd (ToFQDN name)); [by left|]. simpl.
    intros (ip & Hin & Hip)%forallb_false_ex. right. exists ip.
    split; [done|]. unfold ip_ok in Hip. by destruct (snd (ParseAddr ip)).
  - intros [Hname|(ip & Hin & Hip)].
    + by destruct (snd (ToFQDN name)).
    + apply andb_false_iff. right.
      destruct (forallb ip_ok ips) eqn:Hall; [|done].
      rewrite forallb_forall in Hall.
      apply list_elem_of_In, Hall in Hin. unfold ip_ok in Hin.
      by destruct (snd (ParseAddr ip)).
Qed.

(** Whether the loop gets through depends on the entries, not on the order
    they come in. *)
Lemma forallb_entry_ok_range r (m : gmap string (list string)) :
  valid_range r ->
  forallb entry_ok (r m) = true <->
  (forall name ips, m !! name = Some ips -> entry_ok (name, ips) = true).
Proof.
  intros Hr. rewrite forallb_forall. split.
  - intros H name ips Hm. apply H, list_elem_of_In.
    rewrite (Hr m). by apply elem_of_map_to_list.
  - intros H [name ips] Hin. apply H.
    apply list_elem_of_In in Hin. rewrite (Hr m) in Hin.
    by apply elem_of_map_to_list in Hin.
Qed.

Lemma forallb_entry_ok_bad r (m : gmap string (list string)) name ips :
  valid_range r ->
  m !! name = Some ips -> entry_ok (name, ips) = false ->
  forallb entry_ok (r m) = false.
Proof.
  intros Hr Hm Hbad.
  destruct (forallb entry_ok (r m)) eqn:Hall; [|done].
  rewrite (forallb_entry_ok_range r m Hr) in Hall.
  rewrite (Hall _ _ Hm) in Hbad. done.
Qed.

(** ** The table the loops build *)

Lemma lookup_foldl_put_record fqdn entries hosts :
  foldl put_record hosts entries !! fqdn =
    match last (writes fqdn entries) with
    | Some ip => Some [ip]
    | None => hosts !! fqdn
    end.
Proof.
  revert hosts.
  induction entries as [|entry entries IH]; intros hosts; [done|].
  simpl. rewrite IH. unfold writes at 2. simpl. fold (writes fqdn entries).
  unfold put_record.
  destruct (entry_record entry) as [[f ip]|]; [|done].
  destruct (decide (f = fqdn)) as [->|Hne].
  - rewrite lookup_insert_eq, last_cons.
    by destruct (last (writes fqdn entries)).
  - by rewrite lookup_insert_ne.
Qed.

Lemma elem_of_writes fqdn entries (ip : Addr) :
  ip ∈ writes fqdn entries <->
  exists entry, entry ∈ entries /\ entry_record entry = Some (fqdn, ip).
Proof.
  unfold writes. rewrite list_elem_of_omap. split.
  - intros (entry & Hin & Hrec). exists entry. split; [done|].
    destruct (entry_record entry) as [[f a]|]; [|done].
    destruct (decide (f = fqdn)); by simplify_eq.
  - intros (entry & Hin & Hrec). exists entry. split; [done|].
    rewrite Hrec. by rewrite decide_True.
Qed.

(** A list whose elements are all alike has the same last element as any
    of its permutations. *)
Lemma last_Permutation_alike {A} (l l' : list A) :
  (forall x y, x ∈ l -> y ∈ l -> x = y) -> l ≡ₚ l' -> last l = last l'.
Proof.
  intros Halike Hperm.
  destruct (last l) as [x|] eqn:Hl, (last l') as [y|] eqn:Hl'; [|..|done].
  - apply last_Some_elem_of in Hl, Hl'. rewrite <- Hperm in Hl'.
    f_equal. by apply Halike.
  - apply last_None in Hl'. subst l'. apply Permutation_nil_r in Hperm.
    by subst l.
  - apply last_None in Hl. subst l. symmetry in Hperm.
    apply Permutation_nil_r in Hperm. by subst l'.
Qed.

(** The record of an entry of a checked file, read off the file. *)
Lemma entry_record_Some name ips fqdn (ip : Addr) :
  entry_record (name, ips) = Some (fqdn, ip) <->
  exists s, last ips = Some s /\ fqdn = fst (ToFQDN name) /\
            ip = fst (ParseAddr s).
Proof.
  unfold entry_record. simpl. destruct (last ips) as [s|]; split.
  - intros [= <- <-]. eauto.
  - by intros (s' & [= <-] & -> & ->).
  - done.
  - by intros (s' & ? & _).
Qed.

(** In a file without collisions every FQDN is written at most one
    address, so the order of the range does not show in the table. *)
Lemma writes_alike (m : gmap string (list string)) fqdn entries :
  collision_free m -> entries ≡ₚ map_to_list m ->
  forall x y : Addr, x ∈ writes fqdn entries -> y ∈ writes fqdn entries -> x = y.
Proof.
  intros Hfree Hperm x y.
  rewrite !elem_of_writes.
  intros ([name1 ips1] & Hin1 & Hrec1) ([name2 ips2] & Hin2 & Hrec2).
  rewrite Hperm in Hin1, Hin2.
  apply elem_of_map_to_list in Hin1, Hin2.
  apply entry_record_Some in Hrec1 as (s1 & Hl1 & -> & ->).
  apply entry_record_Some in Hrec2 as (s2 & Hl2 & Hf & ->).
  assert (name1 = name2) as ->.
  { apply (Hfree name1 ips1 name2 ips2); try done.
    - intros ->. done.
    - intros ->. done. }
  by simplify_eq.
Qed.

Lemma foldl_put_record_order (m : gmap string (list string)) entries entries' :
  collision_free m ->
  entries ≡ₚ map_to_list m -> entries' ≡ₚ map_to_list m ->
  foldl put_record (∅ : gmap string (list Addr)) entries
  = foldl put_record ∅ entries'.
Proof.
  intros Hfree Hperm Hperm'. apply map_eq. intros fqdn.
  rewrite !lookup_foldl_put_record.
  rewrite (last_Permutation_alike (writes fqdn entries) (writes fqdn entries')).
  - done.
  - by apply (writes_alike m).
  - unfold writes. by rewrite Hperm, Hperm'.
Qed.

(** The address under an FQDN that only one name with addresses has. *)
Lemma last_writes_only fqdn entries (ip : Addr) :
  (exists entry, entry ∈ entries /\ entry_record entry = Some (fqdn, ip)) ->
  (forall entry ip', entry ∈ entries ->
     entry_record entry = Some (fqdn, ip') -> ip' = ip) ->
  last (writes fqdn entries) = Some ip.
Proof.
  intros Hex Honly.
  destruct (last (writes fqdn entries)) as [ip'|] eqn:Hlast.
  - apply last_Some_elem_of, elem_of_writes in Hlast as (entry & Hin & Hrec).
    f_equal. by apply (Honly entry).
  - apply last_None in Hlast. apply elem_of_writes in Hex.
    rewrite Hlast in Hex. by apply elem_of_nil in Hex.
Qed.

Lemma range_hosts_None entries hosts hosts' :
  range_hosts entries hosts = (hosts', None) ->
  forallb entry_ok entries = true /\ hosts' = foldl put_record hosts entries.
Proof.
  intros Hrange.
  destruct (forallb entry_ok entries) eqn:Hall.
  - rewrite range_hosts_ok in Hrange by done. by simplify_eq.
  - destruct (range_hosts_bad entries hosts Hall) as (h & line & e & Heq).
    by rewrite Heq in Hrange.
Qed.

(** ** The reload *)

Lemma updateResolverConfig_Reloaded r n :
  exists err c evs,
    Reloaded r n err c evs /\
    updateResolverConfig r n =
      (err, mkNS (configReader n) (configWatcher n) c (S (reads n))
                 (ctx_done n) (trace n ++ EvReadConfig :: evs)).
Proof.
  unfold updateResolverConfig, bind, call_configReader.
  destruct (configReader n (reads n)) as [b [e|]] eqn:Hread.
  { do 3 eexists. split; [by eapply Reloaded_read_failed|].
    simpl. by rewrite <- app_assoc. }
  destruct (length b <? 1)%nat eqn:Hlen.
  { apply Nat.ltb_lt in Hlen.
    do 3 eexists. split; [by eapply Reloaded_no_config|].
    simpl. by rewrite <- app_assoc. }
  apply Nat.ltb_ge in Hlen.
  destruct (json_Unmarshal b) as [cfg [e|]] eqn:Hjson.
  { do 3 eexists. split; [by eapply Reloaded_decode_failed|].
    simpl. by rewrite <- app_assoc. }
  destruct (range_hosts (r (TSHosts_Hosts cfg)) ∅)
    as [hosts [[line e]|]] eqn:Hrange.
  - do 3 eexists. split; [by eapply Reloaded_invalid|].
    unfold no_records_line.
    destruct (size (TSHosts_Hosts cfg) =? 0)%nat; simpl;
      by rewrite <- !app_assoc.
  - do 3 eexists. split; [by eapply Reloaded_applied|].
    unfold no_records_line.
    destruct (size (TSHosts_Hosts cfg) =? 0)%nat; simpl;
      by rewrite <- !app_assoc.
Qed.

Lemma new_events_app n evs c k d w rd :
  new_events n (mkNS rd w c k d (trace n ++ evs)) = evs.
Proof. unfold new_events. simpl. apply drop_app_length. Qed.

Lemma set_configs_app evs evs' :
  set_configs (evs ++ evs') = (set_configs evs ++ set_configs evs')%list.
Proof. apply omap_app. Qed.

Lemma set_configs_read evs : set_configs (EvReadConfig :: evs) = set_configs evs.
Proof. done. Qed.

Lemma set_configs_no_records_line cfg :
  set_configs (no_records_line cfg : list (@Event error Addr UDPAddr)) = [].
Proof.
  unfold no_records_line. by destruct (size (TSHosts_Hosts cfg) =? 0)%nat.
Qed.

(** A failed reload calls [SetConfig] nowhere; a reload that calls it
    succeeded and left that configuration in the resolver. *)
Lemma Reloaded_set_configs r n err c evs :
  Reloaded r n err c evs ->
  match err with
  | Some _ => c = res n /\ set_configs evs = []
  | None => (c = res n /\ set_configs evs = []) \/ set_configs evs = [c]
  end.
Proof.
  destruct 1; simpl; auto;
    rewrite set_configs_app, set_configs_no_records_line; auto.
Qed.

(** When the reload fails, said on the input. *)
Lemma Reloaded_fails r n err c evs :
  valid_range r ->
  Reloaded r n err c evs ->
  reload_fails n <-> err <> None.
Proof.
  intros Hr HR. unfold reload_fails, invalid_input.
  destruct HR as [b e Hread|b Hread Hlen|b cfg e Hread Hlen Hjson
                 |b cfg hosts line e Hread Hlen Hjson Hrange
                 |b cfg hosts Hread Hlen Hjson Hrange];
    rewrite Hread; simpl.
  - split; [done|]. by left.
  - split; [|done]. intros [?|[Hb _]]; [done|].
    destruct b; [done|]. simpl in Hlen. lia.
  - split; [done|]. intros _. right. rewrite Hjson. simpl.
    split; [by destruct b; [simpl in Hlen; lia|]|]. by left.
  - split; [done|]. intros _. right. rewrite Hjson. simpl.
    split; [by destruct b; [simpl in Hlen; lia|]|]. right.
    destruct (forallb entry_ok (r (TSHosts_Hosts cfg))) eqn:Hall.
    { rewrite range_hosts_ok in Hrange by done. done. }
    apply forallb_false_ex in Hall as ([name ips] & Hin & Hbad).
    exists name, ips. split; [|done].
    rewrite (Hr _) in Hin. by apply elem_of_map_to_list in Hin.
  - split; [|done]. intros [?|[_ [Hbad|(name & ips & Hm & Hbad)]]]; [done| |].
    + by rewrite Hjson in Hbad.
    + rewrite Hjson in Hm. simpl in Hm.
      pose proof (forallb_entry_ok_bad r _ _ _ Hr Hm Hbad) as Hall.
      destruct (range_hosts_bad _ ∅ Hall) as (h' & line & e & Heq).
      rewrite Heq in Hrange. done.
Qed.

Lemma valid_range_map_to_list : valid_range map_to_list.
Proof. by intros m. Qed.

Lemma valid_range_rev_range : valid_range rev_range.
Proof. intros m. apply reverse_Permutation. Qed.

(** The entries of a file given as the list [map_to_list] computes. *)
Lemma entries_ok_by_list (m : gmap string (list string)) :
  forallb entry_ok (map_to_list m) = true ->
  forall name ips, m !! name = Some ips -> entry_ok (name, ips) = true.
Proof. apply (forallb_entry_ok_range map_to_list m valid_range_map_to_list). Qed.

Lemma lookup_by_list (m : gmap string (list string)) l name ips :
  map_to_list m = l -> m !! name = Some ips -> (name, ips) ∈ l.
Proof. intros <- Hm. by apply elem_of_map_to_list. Qed.

Ltac reload r n :=
  let err := fresh "err" in
  let c := fresh "c" in
  let evs := fresh "evs" in
  let HR := fresh "HR" in
  let Heq := fresh "Heq" in
  destruct (updateResolverConfig_Reloaded r n) as (err & c & evs & HR & Heq);
  rewrite Heq; clear Heq.

(** ** Claims about [updateResolverConfig] *)

(** C1: when the reader returns bytes that do not decode, or that decode
    to a file with a name that is no FQDN or an address that is no IP
    literal, [updateResolverConfig] returns an error, never calls
    [SetConfig], and the resolver holds the configuration it held before:
    every query is answered as before, for whatever order the loop visits
    the entries in. *)
Theorem invalid_reload_applies_nothing r n :
  valid_range r ->
  snd (configReader n (reads n)) = None ->
  invalid_input (fst (configReader n (reads n))) ->
  let '(err, n') := updateResolverConfig r n in
  err <> None /\
  set_configs (new_events n n') = [] /\
  res n' = res n /\
  forall payload add, fst (query payload add n') = fst (query payload add n).
Proof.
  intros Hr Hread Hbad. reload r n.
  assert (err <> None) as Herr.
  { apply (Reloaded_fails r n err c evs Hr HR). by right. }
  apply Reloaded_set_configs in HR.
  destruct err as [e|]; [|done]. destruct HR as [-> Hnone].
  rewrite new_events_app. simpl. by fold (set_configs evs).
Qed.

(** C2, as the code has it: when the reader returns no bytes and no error,
    [updateResolverConfig] returns nil without building a configuration:
    [SetConfig] is not called and the resolver keeps the configuration it
    held before. *)
Theorem empty_reload_leaves_resolver r n :
  snd (configReader n (reads n)) = None ->
  length (fst (configReader n (reads n))) = 0 ->
  let '(err, n') := updateResolverConfig r n in
  err = None /\
  set_configs (new_events n n') = [] /\
  res n' = res n.
Proof.
  intros Hread Hlen. reload r n.
  rewrite new_events_app.
  destruct HR as [b e Heq|b Heq _|b cfg e Heq Hb _|b cfg hosts line e Heq Hb _ _
                 |b cfg hosts Heq Hb _ _];
    rewrite Heq in Hread, Hlen; simpl in *; try done; lia.
Qed.

(** C4: every configuration [updateResolverConfig] hands to [SetConfig]
    has [LocalDomains] equal to the built-in list of [ts.net] and
    [ts.net.], whatever the bytes and whatever its [Hosts]; and a reload of
    a file with bytes that succeeds hands over exactly one configuration,
    the one the resolver holds afterwards. *)
Theorem published_LocalDomains_builtin r n :
  let '(err, n') := updateResolverConfig r n in
  (forall c, c ∈ set_configs (new_events n n') ->
     LocalDomains c = ["ts.net"; "ts.net."] /\
     LocalDomains c = tsnetRootDomains /\
     LocalDomains c <> []) /\
  (err = None -> fst (configReader n (reads n)) <> [] ->
     set_configs (new_events n n') = [res n']).
Proof.
  reload r n. rewrite new_events_app. simpl. fold (set_configs evs).
  destruct HR as [b e Heq|b Heq Hb|b cfg e Heq Hb _|b cfg hosts line e Heq Hb _ _
                 |b cfg hosts Heq Hb _ _]; simpl;
    rewrite ?set_configs_app, ?set_configs_no_records_line; simpl.
  - split; [by intros c' ?%elem_of_nil|done].
  - split; [by intros c' ?%elem_of_nil|].
    intros _. rewrite Heq. simpl. destruct b; [done|simpl in Hb; lia].
  - split; [by intros c' ?%elem_of_nil|done].
  - split; [by intros c' ?%elem_of_nil|done].
  - split; [|done]. by intros c' ->%list_elem_of_singleton.
Qed.

(** A reload of a file whose entries all pass the checks applies the
    table the loop builds. *)
Lemma Reloaded_valid r n b cfg err c evs :
  valid_range r ->
  Reloaded r n err c evs ->
  configReader n (reads n) = (b, None) -> b <> [] ->
  json_Unmarshal b = (cfg, None) ->
  (forall name ips, TSHosts_Hosts cfg !! name = Some ips ->
     entry_ok (name, ips) = true) ->
  err = None /\
  c = mkConfig (foldl put_record ∅ (r (TSHosts_Hosts cfg))) tsnetRootDomains /\
  set_configs evs = [c].
Proof.
  intros Hr HR Hread Hb Hjson Hok.
  apply (forallb_entry_ok_range r _ Hr) in Hok.
  pose proof (range_hosts_ok (r (TSHosts_Hosts cfg)) ∅ Hok) as Hrange.
  destruct HR as [b' e Heq|b' Heq Hlen|b' cfg' e Heq Hlen Hjson'
                 |b' cfg' hosts line e Heq Hlen Hjson' Hrange'
                 |b' cfg' hosts Heq Hlen Hjson' Hrange'];
    rewrite Heq in Hread; try done; injection Hread as ->.
  - destruct b; [done|]. simpl in Hlen. lia.
  - rewrite Hjson in Hjson'. done.
  - rewrite Hjson in Hjson'. injection Hjson' as <-.
    rewrite Hrange in Hrange'. done.
  - rewrite Hjson in Hjson'. injection Hjson' as <-.
    rewrite Hrange in Hrange'. injection Hrange' as <-.
    by rewrite set_configs_app, set_configs_no_records_line.
Qed.

Lemma Reloaded_no_bytes r n err c evs :
  Reloaded r n err c evs ->
  configReader n (reads n) = ([], None) ->
  err = None /\ c = res n /\ set_configs evs = [].
Proof.
  intros HR Hread.
  inversion HR as [b e Heq|b Heq Hlen|b cfg e Heq Hlen Hjson
                  |b cfg hosts line e Heq Hlen Hjson Hrange
                  |b cfg hosts Heq Hlen Hjson Hrange];
    rewrite Heq in Hread; try done; injection Hread as ->;
    simpl in Hlen; lia.
Qed.

Lemma Reloaded_succeeded r n b c evs :
  Reloaded r n None c evs ->
  configReader n (reads n) = (b, None) -> b <> [] ->
  exists cfg, json_Unmarshal b = (cfg, None) /\
              forallb entry_ok (r (TSHosts_Hosts cfg)) = true.
Proof.
  intros HR Hread Hb.
  inversion HR as [| b' Heq Hlen | | |b' cfg hosts Heq Hlen Hjson Hrange];
    rewrite Heq in Hread; injection Hread as ->.
  - destruct b; [done|]. simpl in Hlen. lia.
  - exists cfg. split; [done|].
    by apply range_hosts_None in Hrange as [? _].
Qed.

(** C3, as the code has it: in a file whose entries all pass the checks, a
    name with two or more addresses gets, under its FQDN, the one-element
    list of the last of them, provided no other name of the file that has
    addresses normalises to the same FQDN. *)
Theorem last_address_wins r n b cfg name ips ip :
  valid_range r ->
  configReader n (reads n) = (b, None) -> b <> [] ->
  json_Unmarshal b = (cfg, None) ->
  (forall name' ips', TSHosts_Hosts cfg !! name' = Some ips' ->
     entry_ok (name', ips') = true) ->
  TSHosts_Hosts cfg !! name = Some ips ->
  2 <= length ips -> last ips = Some ip ->
  (forall name' ips', TSHosts_Hosts cfg !! name' = Some ips' -> ips' <> [] ->
     fst (ToFQDN name') = fst (ToFQDN name) -> name' = name) ->
  let '(err, n') := updateResolverConfig r n in
  err = None /\
  set_configs (new_events n n') = [res n'] /\
  Hosts (res n') !! fst (ToFQDN name) = Some [fst (ParseAddr ip)].
Proof.
  intros Hr Hread Hb Hjson Hok Hname Hlen Hlast Honly. reload r n.
  destruct (Reloaded_valid r n b cfg err c evs Hr HR Hread Hb Hjson Hok)
    as (-> & -> & Hset).
  rewrite new_events_app. simpl. fold (set_configs evs).
  split; [done|]. split; [done|].
  rewrite lookup_foldl_put_record.
  rewrite (last_writes_only _ _ (fst (ParseAddr ip))); [done| |].
  - exists (name, ips). split.
    + rewrite (Hr _). by apply elem_of_map_to_list.
    + apply entry_record_Some. eauto.
  - intros [name' ips'] ip' Hin Hrec.
    rewrite (Hr _) in Hin. apply elem_of_map_to_list in Hin.
    apply entry_record_Some in Hrec as (s & Hlast' & Hf & ->).
    assert (name' = name) as ->.
    { apply (Honly name' ips'); [done| |done]. by intros ->. }
    by simplify_eq.
Qed.

(** C8, as the code has it: when a reload succeeds, a second one on the
    same bytes succeeds too; and when no two names of the file that have
    addresses share an FQDN, it hands [SetConfig] the same configuration,
    so the resolver holds what it held and answers as it did. *)
Theorem reload_twice r1 r2 n b :
  valid_range r1 -> valid_range r2 ->
  configReader n (reads n) = (b, None) ->
  configReader n (S (reads n)) = (b, None) ->
  let '(err1, n1) := updateResolverConfig r1 n in
  let '(err2, n2) := updateResolverConfig r2 n1 in
  err1 = None ->
  err2 = None /\
  ((b <> [] -> collision_free (TSHosts_Hosts (fst (json_Unmarshal b)))) ->
   set_configs (new_events n1 n2) = set_configs (new_events n n1) /\
   res n2 = res n1 /\
   forall payload add, fst (query payload add n2) = fst (query payload add n1)).
Proof.
  intros Hr1 Hr2 Hread1 Hread2. reload r1 n.
  match goal with |- context [updateResolverConfig r2 ?m] => set (n1 := m) end.
  assert (configReader n1 (reads n1) = (b, None)) as Hread2' by done.
  destruct (updateResolverConfig_Reloaded r2 n1)
    as (err2 & c2 & evs2 & HR2 & Heq2).
  rewrite Heq2. clear Heq2. subst n1.
  rewrite !new_events_app, !set_configs_read. simpl. intros ->.
  destruct (decide (b = [])) as [->|Hb].
  { destruct (Reloaded_no_bytes _ _ _ _ _ HR Hread1) as (_ & -> & ->).
    destruct (Reloaded_no_bytes _ _ _ _ _ HR2 Hread2') as (-> & -> & ->).
    done. }
  destruct (Reloaded_succeeded _ _ _ _ _ HR Hread1 Hb) as (cfg & Hjson & Hall).
  assert (forall name ips, TSHosts_Hosts cfg !! name = Some ips ->
            entry_ok (name, ips) = true) as Hok
    by (by apply (forallb_entry_ok_range r1 _ Hr1)).
  destruct (Reloaded_valid r1 n b cfg None c evs Hr1 HR Hread1 Hb Hjson Hok)
    as (_ & -> & Hset1).
  destruct (Reloaded_valid r2 _ b cfg err2 c2 evs2 Hr2 HR2 Hread2' Hb Hjson Hok)
    as (-> & -> & Hset2).
  split; [done|]. intros Hfree. specialize (Hfree Hb).
  rewrite Hjson in Hfree. simpl in Hfree.
  rewrite Hset1, Hset2.
  rewrite (foldl_put_record_order _ _ _ Hfree (Hr2 _) (Hr1 _)).
  done.
Qed.

(** C10, as the code has it: in a file whose entries all pass the checks,
    a name with an empty address array does not stop the reload and leaves
    no record: its FQDN is absent from the table unless another name with
    addresses normalises to it; and every value of the table is the
    one-element list of the parsed last address of some entry. *)
Theorem empty_array_leaves_no_record r n b cfg name :
  valid_range r ->
  configReader n (reads n) = (b, None) -> b <> [] ->
  json_Unmarshal b = (cfg, None) ->
  (forall name' ips', TSHosts_Hosts cfg !! name' = Some ips' ->
     entry_ok (name', ips') = true) ->
  TSHosts_Hosts cfg !! name = Some [] ->
  let '(err, n') := updateResolverConfig r n in
  err = None /\
  set_configs (new_events n n') = [res n'] /\
  ((forall name' ips', TSHosts_Hosts cfg !! name' = Some ips' -> ips' <> [] ->
      fst (ToFQDN name') <> fst (ToFQDN name)) ->
   Hosts (res n') !! fst (ToFQDN name) = None) /\
  (forall fqdn addrs, Hosts (res n') !! fqdn = Some addrs ->
     exists name' ips' ip,
       TSHosts_Hosts cfg !! name' = Some ips' /\ last ips' = Some ip /\
       ip_ok ip = true /\
       fqdn = fst (ToFQDN name') /\ addrs = [fst (ParseAddr ip)]).
Proof.
  intros Hr Hread Hb Hjson Hok Hname. reload r n.
  destruct (Reloaded_valid r n b cfg err c evs Hr HR Hread Hb Hjson Hok)
    as (-> & -> & Hset).
  rewrite new_events_app. simpl. fold (set_configs evs).
  split; [done|]. split; [done|]. split.
  - intros Hother. rewrite lookup_foldl_put_record, lookup_empty.
    destruct (last (writes _ _)) as [ip|] eqn:Hlast; [|done].
    apply last_Some_elem_of, elem_of_writes in Hlast
      as ([name' ips'] & Hin & Hrec).
    rewrite (Hr _) in Hin. apply elem_of_map_to_list in Hin.
    apply entry_record_Some in Hrec as (s & Hlast & Hf & _).
    destruct (Hother name' ips' Hin); [by intros ->|done].
  - intros fqdn addrs. rewrite lookup_foldl_put_record, lookup_empty.
    destruct (last (writes _ _)) as [ip|] eqn:Hlast; [|done].
    intros [= <-].
    apply last_Some_elem_of, elem_of_writes in Hlast
      as ([name' ips'] & Hin & Hrec).
    rewrite (Hr _) in Hin. apply elem_of_map_to_list in Hin.
    apply entry_record_Some in Hrec as (s & Hlast & -> & ->).
    exists name', ips', s. repeat split; try done.
    specialize (Hok _ _ Hin). unfold entry_ok in Hok. simpl in Hok.
    apply andb_prop in Hok as [_ Hips].
    rewrite forallb_forall in Hips. apply Hips.
    apply list_elem_of_In. by apply last_Some_elem_of.
Qed.

(** ** [run], [main] and the watch loop *)

(** A reload looks at the reader, the read count and the resolver only. *)
Lemma Reloaded_same_input r n n' err c evs :
  configReader n' = configReader n -> reads n' = reads n -> res n' = res n ->
  Reloaded r n err c evs -> Reloaded r n' err c evs.
Proof.
  intros Hreader Hreads Hres HR.
  destruct HR; rewrite <- ?Hres; econstructor; rewrite ?Hreader, ?Hreads; eauto.
Qed.

Lemma reload_fails_same_input n n' :
  configReader n' = configReader n -> reads n' = reads n ->
  reload_fails n -> reload_fails n'.
Proof. unfold reload_fails. by intros -> ->. Qed.

Lemma run_Reloaded r n :
  exists err c evs,
    Reloaded r n err c evs /\
    run r n =
      (fmt_Errorf "error updating resolver config: %w" <$> err,
       mkNS (configReader n) (configWatcher n) c (S (reads n)) (ctx_done n)
            (trace n ++ EvLog LogSettingInitial :: EvReadConfig :: evs
                     ++ run_tail err)).
Proof.
  unfold run, bind, logf, emit.
  match goal with |- context [updateResolverConfig r ?m] => set (n0 := m) end.
  destruct (updateResolverConfig_Reloaded r n0) as (err & c & evs & HR & Heq).
  exists err, c, evs. split.
  { by apply (Reloaded_same_input r n0 n). }
  rewrite Heq. subst n0. simpl.
  destruct err as [e|]; simpl; unfold ret;
    repeat rewrite <- app_assoc; simpl; by rewrite ?app_nil_r.
Qed.

Lemma Reloaded_events r n err c evs :
  Reloaded r n err c evs -> forallb is_reload_event evs = true.
Proof.
  destruct 1; try done; unfold no_records_line;
    by destruct (size (TSHosts_Hosts cfg) =? 0)%nat.
Qed.

Lemma reload_events_quiet evs :
  forallb is_reload_event evs = true ->
  count_reads evs = 0 /\ writes_of evs = [] /\
  forall e, is_reload_event e = false -> e ∉ evs.
Proof.
  induction evs as [|e evs IH]; intros Hall.
  { repeat split. intros e _. apply not_elem_of_nil. }
  simpl in Hall. apply andb_prop in Hall as [He Hall].
  destruct (IH Hall) as (Hreads & Hwrites & Hnotin).
  repeat split.
  - by destruct e.
  - by destruct e.
  - intros e' He'. apply not_elem_of_cons. split; [|by apply Hnotin].
    intros ->. by rewrite He in He'.
Qed.

Lemma count_reads_app evs evs' :
  count_reads (evs ++ evs') = count_reads evs + count_reads evs'.
Proof. unfold count_reads. by rewrite omap_app, length_app. Qed.

Lemma writes_of_app evs evs' :
  writes_of (evs ++ evs') = (writes_of evs ++ writes_of evs')%list.
Proof. apply omap_app. Qed.


Lemma watch_iter_config r n msg ok ch :
  chan_recv (configWatcher n) = Some (msg, ok, ch) ->
  exists err c evs,
    Reloaded r n err c evs /\
    watch_iter (SelConfig r) n =
      (Running,
       mkNS (configReader n) ch c (S (reads n))
            (match err with Some _ => true | None => ctx_done n end)
            (trace n ++ EvLog LogAttempting :: EvReadConfig :: evs
                     ++ iter_tail err)).
Proof.
  intros Hrecv. unfold watch_iter. rewrite Hrecv.
  unfold bind, set_configWatcher, logf, emit.
  match goal with |- context [updateResolverConfig r ?m] => set (n0 := m) end.
  destruct (updateResolverConfig_Reloaded r n0) as (err & c & evs & HR & Heq).
  exists err, c, evs. split.
  { by apply (Reloaded_same_input r n0 n). }
  rewrite Heq. subst n0. simpl.
  destruct err as [e|]; simpl; unfold ret;
    repeat rewrite <- app_assoc; simpl; done.
Qed.

(** C6: when the watch loop receives from the signal channel and the reload
    it triggers fails, that pass calls [cancelF]: the context is cancelled,
    the reader was called once, [SetConfig] not at all, and the next select
    can take the [ctx.Done()] case and leave the loop. *)
Theorem failed_reload_cancels r n :
  valid_range r ->
  chan_recv (configWatcher n) <> None ->
  reload_fails n ->
  let '(t, n') := watch_iter (SelConfig r) n in
  EvCancel ∈ new_events n n' /\
  ctx_done n' = true /\
  count_reads (new_events n n') = 1 /\
  set_configs (new_events n n') = [] /\
  res n' = res n /\
  fst (watch_iter SelDone n') = Exited.
Proof.
  intros Hr Hrecv Hfails.
  destruct (chan_recv (configWatcher n)) as [[[msg ok] ch]|] eqn:Hch; [|done].
  destruct (watch_iter_config r n msg ok ch Hch) as (err & c & evs & HR & ->).
  rewrite new_events_app.
  destruct (reload_events_quiet evs (Reloaded_events _ _ _ _ _ HR))
    as (Hreads & _ & _).
  apply (Reloaded_fails r n err c evs Hr HR) in Hfails.
  destruct err as [e|]; [|done].
  apply Reloaded_set_configs in HR as [-> Hsets].
  change (EvLog LogAttempting :: EvReadConfig :: evs ++ iter_tail (Some e))
    with ([EvLog LogAttempting; EvReadConfig] ++ evs ++ iter_tail (Some e)).
  split.
  { rewrite !elem_of_app. right. right. simpl. set_solver. }
  split; [done|].
  split; [by rewrite !count_reads_app, Hreads|].
  split; [by rewrite !set_configs_app, Hsets|].
  done.
Qed.

(** A step of the schedule never revives the context, never restarts the
    task, and ends the task only by the [ctx.Done()] case. *)
Lemma watch_step_exit st t n :
  let '(t', n') := watch_step st t n in
  (ctx_done n = true -> ctx_done n' = true) /\
  (t = Exited -> t' = Exited) /\
  (t = Running -> t' = Exited ->
   st = TaskSelect SelDone /\ ctx_done n = true).
Proof.
  destruct st as [msg| | |[|r]]; simpl.
  - unfold bind, env_send, set_configWatcher, ret.
    destruct (configWatcher n); repeat split; intros; by simplify_eq.
  - repeat split; intros; by simplify_eq.
  - repeat split; intros; by simplify_eq.
  - destruct t; [|unfold ret; repeat split; intros; by simplify_eq].
    unfold watch_iter.
    destruct (ctx_done n) eqn:Hdone; repeat split; intros; by simplify_eq.
  - destruct t; [|unfold ret; repeat split; intros; by simplify_eq].
    destruct (chan_recv (configWatcher n)) as [[[msg ok] ch]|] eqn:Hch.
    + destruct (watch_iter_config r n msg ok ch Hch) as (err & c & evs & _ & ->).
      simpl. destruct err; repeat split; intros; by simplify_eq.
    + unfold watch_iter. rewrite Hch. repeat split; intros; by simplify_eq.
Qed.

Lemma watch_loop_exit sched t n :
  let '(t', n') := watch_loop sched t n in
  (ctx_done n = true -> ctx_done n' = true) /\
  (t = Exited -> t' = Exited) /\
  (t = Running -> t' = Exited ->
   TaskSelect SelDone ∈ sched /\ ctx_done n' = true).
Proof.
  revert t n. induction sched as [|st sched IH]; intros t n; simpl.
  { unfold ret. split; [done|]. split; [done|]. by intros ->. }
  unfold bind.
  pose proof (watch_step_exit st t n) as Hstep.
  destruct (watch_step st t n) as [t1 n1].
  specialize (IH t1 n1).
  destruct (watch_loop sched t1 n1) as [t' n'].
  destruct Hstep as (Hd1 & He1 & Hx1), IH as (Hd & He & Hx).
  split; [auto|]. split; [auto|].
  intros Hrun Hexit.
  destruct t1.
  - destruct (Hx eq_refl Hexit) as [Hin Hdone].
    split; [by right|done].
  - destruct (Hx1 Hrun eq_refl) as [-> Hdone].
    split; [by left|auto].
Qed.

(** C9, as the code has it: the watch task ends in one way only, by a
    select taking the [ctx.Done()] case, which needs the context cancelled.
    A closed signal channel does not end it: a receive from it returns at
    once, the pass reloads, and the task is back at its select with the
    channel still closed. *)
Theorem watch_task_exits_only_on_done sched n :
  (let '(t, n') := watch_loop sched Running n in
   t = Exited -> TaskSelect SelDone ∈ sched /\ ctx_done n' = true) /\
  (ctx_done n = true ->
   fst (watch_step (TaskSelect SelDone) Running n) = Exited) /\
  (forall r, configWatcher n = ChClosed ->
   let '(t1, n1) := watch_step (TaskSelect (SelConfig r)) Running n in
   t1 = Running /\ configWatcher n1 = ChClosed /\
   count_reads (new_events n n1) = 1).
Proof.
  split; [|split].
  - pose proof (watch_loop_exit sched Running n) as H.
    destruct (watch_loop sched Running n) as [t n'].
    destruct H as (_ & _ & H). by apply H.
  - intros Hdone. simpl. unfold watch_iter. by rewrite Hdone.
  - intros r Hclosed. cbn [watch_step].
    assert (chan_recv (configWatcher n) = Some ("", false, ChClosed)) as Hch
      by (by rewrite Hclosed).
    destruct (watch_iter_config r n _ _ _ Hch) as (err & c & evs & HR & ->).
    rewrite new_events_app.
    destruct (reload_events_quiet evs (Reloaded_events _ _ _ _ _ HR))
      as (Hreads & _ & _).
    split; [done|]. split; [done|].
    change (EvLog LogAttempting :: EvReadConfig :: evs ++ iter_tail err)
      with ([EvLog LogAttempting; EvReadConfig] ++ evs ++ iter_tail err).
    rewrite !count_reads_app, Hreads. by destruct err.
Qed.

(** ** [query] and the serving loop *)

Lemma handle_writes d n :
  exists evs,
    handle d n = (tt, mkNS (configReader n) (configWatcher n) (res n) (reads n)
                           (ctx_done n) (trace n ++ evs)) /\
    writes_of evs = [answer (res n) d] /\
    (forall e, snd (res_Query (res n) (dg_payload d) "udp"
                      (UDPAddr_AddrPort (dg_addr d))) = Some e ->
       EvLog (LogErrQuerying e) ∈ evs /\
       EvWriteToUDP (fst (answer (res n) d)) (dg_addr d) ∈ evs).
Proof.
  unfold handle, query, bind, answer, logf, emit, ret.
  destruct (res_Query (res n) (dg_payload d) "udp" (UDPAddr_AddrPort (dg_addr d)))
    as [dnsAnswer [e|]];
    destruct (dg_written d) as [k [e'|]]; simpl;
    repeat rewrite <- app_assoc; simpl; eexists;
    (split; [reflexivity|]); (split; [done|]);
    intros e0 [= <-] || intros e0 [=]; set_solver.
Qed.

Lemma gos_of_app evs evs' :
  gos_of (evs ++ evs') = (gos_of evs ++ gos_of evs')%list.
Proof. apply omap_app. Qed.

(** The serving loop only logs and starts goroutines. *)
Lemma serve_starts ins n :
  exists evs,
    serve ins n = (tt, mkNS (configReader n) (configWatcher n) (res n) (reads n)
                            (ctx_done n) (trace n ++ evs)) /\
    gos_of evs = map go_of (served ins) /\
    writes_of evs = [] /\
    count_reads evs = 0 /\ set_configs evs = [].
Proof.
  revert n. induction ins as [|d ins IH]; intros n; simpl.
  { exists []. rewrite app_nil_r. by destruct n. }
  unfold bind, logf, emit.
  destruct (dg_read_err d) as [e|]; simpl.
  { eexists. rewrite <- app_assoc. split; [reflexivity|done]. }
  match goal with |- context [serve ins ?m] => set (n1 := m) end.
  destruct (IH n1) as (evs2 & -> & Hg2 & Hw2 & Hr2 & Hs2).
  subst n1. simpl in *.
  eexists. repeat rewrite <- app_assoc. split; [reflexivity|].
  rewrite !gos_of_app, !writes_of_app, !count_reads_app, !set_configs_app.
  by rewrite Hg2, Hw2, Hr2, Hs2.
Qed.

(** C7: [query] returns the bytes and the error of the resolver's [Query],
    as they are and without touching the nameserver; the goroutine of a
    datagram, in whatever state it runs, writes those bytes to the sender
    once, also when [Query] reported an error; and the serving loop starts
    such a goroutine, with the buffer and the sender, for every datagram it
    reads before a read fails, writing nothing itself and leaving the
    resolver as it is. *)
Theorem query_answer_always_written payload add d ins n :
  query payload add n = (res_Query (res n) payload "udp" add, n) /\
  (let '(_, n') := handle d n in
   writes_of (new_events n n') = [answer (res n) d] /\
   (forall e, snd (res_Query (res n) (dg_payload d) "udp"
                     (UDPAddr_AddrPort (dg_addr d))) = Some e ->
      EvLog (LogErrQuerying e) ∈ new_events n n' /\
      EvWriteToUDP (fst (answer (res n) d)) (dg_addr d) ∈ new_events n n')) /\
  (let '(_, n') := serve ins n in
   gos_of (new_events n n') = map go_of (served ins) /\
   writes_of (new_events n n') = [] /\
   res n' = res n).
Proof.
  split; [done|]. split.
  - destruct (handle_writes d n) as (evs & -> & Hw & Herr).
    by rewrite new_events_app.
  - destruct (serve_starts ins n) as (evs & -> & Hg & Hw & _).
    by rewrite new_events_app.
Qed.

(** * More of the code: what the reload publishes *)

Lemma lookup_table_is_Some entries fqdn :
  is_Some (foldl put_record (∅ : gmap string (list Addr)) entries !! fqdn) <->
  exists name ips,
    (name, ips) ∈ entries /\ ips <> [] /\ fst (ToFQDN name) = fqdn.
Proof.
  rewrite lookup_foldl_put_record, lookup_empty. split.
  - destruct (last (writes fqdn entries)) as [ip|] eqn:Hl;
      [|by intros [? ?]].
    intros _.
    apply last_Some_elem_of, elem_of_writes in Hl as ([name ips] & Hin & Hrec).
    apply entry_record_Some in Hrec as (s & Hs & -> & _).
    exists name, ips. split; [done|]. split; [by intros ->|done].
  - intros (name & ips & Hin & Hne & <-).
    destruct (last ips) as [s|] eqn:Hs; [|by apply last_None in Hs].
    assert (fst (ParseAddr s) ∈ writes (fst (ToFQDN name)) entries) as Hw.
    { apply elem_of_writes. exists (name, ips). split; [done|].
      apply entry_record_Some. eauto. }
    destruct (last (writes (fst (ToFQDN name)) entries)) eqn:Hl; [done|].
    apply last_None in Hl. rewrite Hl in Hw. by apply elem_of_nil in Hw.
Qed.

Lemma lookup_table_length entries fqdn (addrs : list Addr) :
  foldl put_record ∅ entries !! fqdn = Some addrs -> length addrs = 1.
Proof.
  rewrite lookup_foldl_put_record, lookup_empty.
  destruct (last (writes fqdn entries)); [|done]. by intros [= <-].
Qed.

(** The table of a reload that succeeded on a file with bytes. *)
Lemma Reloaded_table r n b cfg c evs :
  Reloaded r n None c evs ->
  configReader n (reads n) = (b, None) -> b <> [] ->
  json_Unmarshal b = (cfg, None) ->
  c = mkConfig (foldl put_record ∅ (r (TSHosts_Hosts cfg))) tsnetRootDomains /\
  set_configs evs = [c].
Proof.
  intros HR Hread Hb Hjson.
  inversion HR as [| b' Heq Hlen | | |b' cfg' hosts Heq Hlen Hjson' Hrange];
    rewrite Heq in Hread; injection Hread as ->.
  - destruct b; [done|]. simpl in Hlen. lia.
  - rewrite Hjson in Hjson'. injection Hjson' as <-.
    apply range_hosts_None in Hrange as [_ ->].
    by rewrite set_configs_app, set_configs_no_records_line.
Qed.

Lemma Reloaded_None_read r n c evs :
  Reloaded r n None c evs -> exists b, configReader n (reads n) = (b, None).
Proof. inversion 1; eauto. Qed.

Lemma names_of_range r cfg fqdn :
  valid_range r ->
  names_of cfg fqdn <->
  exists name ips,
    (name, ips) ∈ r (TSHosts_Hosts cfg) /\ ips <> [] /\
    fst (ToFQDN name) = fqdn.
Proof.
  intros Hr. unfold names_of.
  split; intros (name & ips & Hin & Hrest); exists name, ips;
    (split; [|done]).
  - rewrite (Hr _). by apply elem_of_map_to_list.
  - rewrite (Hr _) in Hin. by apply elem_of_map_to_list in Hin.
Qed.

(** X1: after a reload that succeeds on a file with bytes, the FQDNs in the
    resolver's table are exactly those of the names of the file that have
    at least one address, whatever the order of the range and whatever the
    resolver held before. *)
Theorem published_table_names r n b cfg :
  valid_range r ->
  configReader n (reads n) = (b, None) -> b <> [] ->
  json_Unmarshal b = (cfg, None) ->
  let '(err, n') := updateResolverConfig r n in
  err = None ->
  forall fqdn, is_Some (Hosts (res n') !! fqdn) <-> names_of cfg fqdn.
Proof.
  intros Hr Hread Hb Hjson. reload r n. intros -> fqdn.
  destruct (Reloaded_table r n b cfg c evs HR Hread Hb Hjson) as [-> _].
  simpl. rewrite lookup_table_is_Some. symmetry. by apply names_of_range.
Qed.

(** X2: whether a reload succeeds, and which FQDNs the resolver's table has
    afterwards, does not depend on the order in which the range visits the
    entries of the file. *)
Theorem reload_outcome_order_independent r1 r2 n :
  valid_range r1 -> valid_range r2 ->
  let '(err1, n1) := updateResolverConfig r1 n in
  let '(err2, n2) := updateResolverConfig r2 n in
  (err1 = None <-> err2 = None) /\
  forall fqdn,
    is_Some (Hosts (res n1) !! fqdn) <-> is_Some (Hosts (res n2) !! fqdn).
Proof.
  intros Hr1 Hr2.
  destruct (updateResolverConfig_Reloaded r1 n) as (err1 & c1 & evs1 & HR1 & ->).
  destruct (updateResolverConfig_Reloaded r2 n) as (err2 & c2 & evs2 & HR2 & ->).
  simpl.
  pose proof (Reloaded_fails r1 n err1 c1 evs1 Hr1 HR1) as Hf1.
  pose proof (Reloaded_fails r2 n err2 c2 evs2 Hr2 HR2) as Hf2.
  assert (err1 = None <-> err2 = None) as Hiff.
  { destruct err1, err2; split; try done; intros _.
    - by destruct (proj1 Hf2 (proj2 Hf1 ltac:(done))).
    - by destruct (proj1 Hf1 (proj2 Hf2 ltac:(done))). }
  split; [done|]. intros fqdn.
  destruct err1 as [e1|].
  { destruct err2 as [e2|]; [|discriminate (proj2 Hiff eq_refl)].
    apply Reloaded_set_configs in HR1 as [-> _].
    by apply Reloaded_set_configs in HR2 as [-> _]. }
  destruct err2 as [e2|]; [discriminate (proj1 Hiff eq_refl)|].
  destruct (Reloaded_None_read _ _ _ _ HR1) as [b Hread].
  destruct (decide (b = [])) as [->|Hb].
  { destruct (Reloaded_no_bytes _ _ _ _ _ HR1 Hread) as (_ & -> & _).
    by destruct (Reloaded_no_bytes _ _ _ _ _ HR2 Hread) as (_ & -> & _). }
  destruct (Reloaded_succeeded _ _ _ _ _ HR1 Hread Hb) as (cfg & Hjson & _).
  destruct (Reloaded_table r1 n b cfg c1 evs1 HR1 Hread Hb Hjson) as [-> _].
  destruct (Reloaded_table r2 n b cfg c2 evs2 HR2 Hread Hb Hjson) as [-> _].
  simpl. rewrite !lookup_table_is_Some.
  by rewrite <- !names_of_range.
Qed.

(** * More of the code: the watch loop *)

Lemma new_events_trace n n' evs :
  trace n' = trace n ++ evs -> new_events n n' = evs.
Proof. unfold new_events. intros ->. apply drop_app_length. Qed.

(** X3: after [run] has started the watch task, a signal on the channel
    makes the task reload; when the reader then returns a file whose entries
    all pass the checks, the task keeps running without cancelling, the
    signal is consumed, and the resolver's table has exactly the FQDNs of
    the new file: a name only the old file had is gone. *)
Theorem signalled_reload_replaces_table r1 r2 msg n b cfg :
  valid_range r2 ->
  configWatcher n = ChOpen [] ->
  configReader n (S (reads n)) = (b, None) -> b <> [] ->
  json_Unmarshal b = (cfg, None) ->
  (forall name ips, TSHosts_Hosts cfg !! name = Some ips ->
     entry_ok (name, ips) = true) ->
  let '(err, n1) := run r1 n in
  let '(t, n2) :=
    watch_loop [EnvSend msg; TaskSelect (SelConfig r2)] Running n1 in
  err = None ->
  t = Running /\
  ctx_done n2 = ctx_done n /\
  configWatcher n2 = ChOpen [] /\
  reads n2 = S (S (reads n)) /\
  set_configs (new_events n1 n2) = [res n2] /\
  LocalDomains (res n2) = tsnetRootDomains /\
  forall fqdn, is_Some (Hosts (res n2) !! fqdn) <-> names_of cfg fqdn.
Proof.
  intros Hr2 Hch Hread Hb Hjson Hok.
  destruct (run_Reloaded r1 n) as (err1 & c1 & evs1 & HR1 & ->).
  cbn [watch_loop watch_step]. unfold bind at 1 2. unfold env_send, ret at 1.
  cbn [configWatcher]. rewrite Hch. unfold set_configWatcher. cbn [fst snd].
  cbn [configReader configWatcher res reads ctx_done trace app].
  match goal with |- context [bind _ _ ?m] => set (n1 := m) end.
  unfold bind.
  assert (chan_recv (configWatcher n1) = Some (msg, true, ChOpen [])) as Hrecv
    by done.
  destruct (watch_iter_config r2 n1 _ _ _ Hrecv) as (err2 & c2 & evs2 & HR2 & ->).
  unfold ret.
  assert (configReader n1 (reads n1) = (b, None)) as Hread' by done.
  destruct (Reloaded_valid r2 n1 b cfg err2 c2 evs2 Hr2 HR2 Hread' Hb Hjson Hok)
    as (-> & Hc2 & Hset).
  intros Herr. subst n1. cbn [ctx_done configWatcher reads res trace].
  split; [done|]. split; [done|]. split; [done|]. split; [done|].
  split.
  { rewrite (new_events_trace _ _
               (EvLog LogAttempting :: EvReadConfig :: evs2 ++ iter_tail None))
      by done.
    change (EvLog LogAttempting :: EvReadConfig :: evs2 ++ iter_tail None)
      with ([EvLog LogAttempting; EvReadConfig] ++ evs2 ++ iter_tail None).
    by rewrite !set_configs_app, Hset. }
  rewrite Hc2. split; [done|]. intros fqdn. simpl.
  rewrite lookup_table_is_Some. symmetry. by apply names_of_range.
Qed.

(** X4: the watch task reloads only for a signal: as long as the channel is
    not closed, every reload takes one offered message off it, so the
    reader is never called more often than messages were sent. *)
Theorem reloads_consume_signals sched t n :
  configWatcher n <> ChClosed ->
  EnvClose ∉ sched ->
  let '(t', n') := watch_loop sched t n in
  configWatcher n' <> ChClosed /\
  reads n' + chan_pending (configWatcher n')
    = reads n + chan_pending (configWatcher n) + count_sends sched.
Proof.
  revert t n. induction sched as [|st sched IH]; intros t n Hopen Hnoclose.
  { simpl. unfold ret. split; [done|]. unfold count_sends. simpl. lia. }
  apply not_elem_of_cons in Hnoclose as [Hst Hnoclose].
  cbn [watch_loop]. unfold bind.
  assert (let '(t1, n1) := watch_step st t n in
          configWatcher n1 <> ChClosed /\
          reads n1 + chan_pending (configWatcher n1)
            = reads n + chan_pending (configWatcher n) + count_sends [st])
    as Hstep.
  { destruct st as [msg| | |[|r]]; [| done | | |].
    - simpl. unfold bind, env_send, set_configWatcher, ret.
      destruct (configWatcher n) as [ms|] eqn:Hch; [|done]. simpl.
      split; [done|]. rewrite length_app. unfold count_sends. simpl. lia.
    - simpl. unfold count_sends. simpl. split; [done|]. lia.
    - cbn [watch_step]. unfold count_sends. simpl.
      destruct t; [|unfold ret; split; [done|lia]].
      unfold watch_iter. destruct (ctx_done n); simpl; split; try done; lia.
    - cbn [watch_step]. unfold count_sends. simpl.
      destruct t; [|unfold ret; split; [done|lia]].
      destruct (chan_recv (configWatcher n)) as [[[msg ok] ch]|] eqn:Hch.
      + destruct (watch_iter_config r n msg ok ch Hch)
          as (err & c & evs & _ & ->).
        simpl. destruct (configWatcher n) as [[|m ms]|]; try done.
        simpl in Hch. injection Hch as <- <- <-. simpl. split; [done|]. lia.
      + unfold watch_iter. rewrite Hch. split; [done|]. lia. }
  destruct (watch_step st t n) as [t1 n1]. destruct Hstep as [Hopen1 Hcount1].
  specialize (IH t1 n1 Hopen1 Hnoclose).
  destruct (watch_loop sched t1 n1) as [t' n']. destruct IH as [Hopen' Hcount'].
  split; [done|].
  change (st :: sched) with ([st] ++ sched).
  unfold count_sends in *. rewrite omap_app, length_app. lia.
Qed.

Lemma Reloaded_wf r n err c evs :
  Reloaded r n err c evs ->
  Forall wf_config (set_configs evs) /\ (wf_config (res n) -> wf_config c).
Proof.
  destruct 1 as [| | | |b cfg hosts Hread Hlen Hjson Hrange];
    rewrite ?set_configs_app, ?set_configs_no_records_line; simpl;
    try (split; [by constructor|done]).
  apply range_hosts_None in Hrange as [_ ->].
  assert (wf_config (mkConfig (foldl put_record ∅ (r (TSHosts_Hosts cfg)))
                              tsnetRootDomains)) as Hwf.
  { split; [done|]. intros fqdn addrs. apply lookup_table_length. }
  split; [|done]. apply Forall_cons. split; [exact Hwf|apply Forall_nil_2].
Qed.

Lemma set_configs_iter_tail (err : option error) :
  set_configs (iter_tail err : list (@Event error Addr UDPAddr)) = [].
Proof. by destruct err. Qed.

Lemma watch_step_wf st t n :
  let '(t', n') := watch_step st t n in
  exists evs,
    trace n' = trace n ++ evs /\
    Forall wf_config (set_configs evs) /\
    (wf_config (res n) -> wf_config (res n')).
Proof.
  destruct st as [msg| | |[|r]]; simpl.
  - unfold bind, env_send, set_configWatcher, ret.
    destruct (configWatcher n); exists []; by rewrite app_nil_r.
  - exists []. by rewrite app_nil_r.
  - exists []. by rewrite app_nil_r.
  - destruct t; [|unfold ret; exists []; by rewrite app_nil_r].
    unfold watch_iter. destruct (ctx_done n).
    + eexists. simpl. split; [reflexivity|]. by split; [constructor|].
    + exists []. by rewrite app_nil_r.
  - destruct t; [|unfold ret; exists []; by rewrite app_nil_r].
    destruct (chan_recv (configWatcher n)) as [[[msg ok] ch]|] eqn:Hch.
    + destruct (watch_iter_config r n msg ok ch Hch)
        as (err & c & evs & HR & ->).
      destruct (Reloaded_wf r n err c evs HR) as [Hall Hres].
      eexists. simpl. split; [reflexivity|]. split; [|done].
      change (EvLog LogAttempting :: EvReadConfig :: evs ++ iter_tail err)
        with ([EvLog LogAttempting; EvReadConfig] ++ evs ++ iter_tail err).
      by rewrite !set_configs_app, set_configs_iter_tail, app_nil_r.
    + unfold watch_iter. rewrite Hch. exists []. by rewrite app_nil_r.
Qed.

Lemma watch_loop_wf sched t n :
  let '(t', n') := watch_loop sched t n in
  exists evs,
    trace n' = trace n ++ evs /\
    Forall wf_config (set_configs evs) /\
    (wf_config (res n) -> wf_config (res n')).
Proof.
  revert t n. induction sched as [|st sched IH]; intros t n; simpl.
  { unfold ret. exists []. by rewrite app_nil_r. }
  unfold bind.
  pose proof (watch_step_wf st t n) as Hstep.
  destruct (watch_step st t n) as [t1 n1].
  specialize (IH t1 n1).
  destruct (watch_loop sched t1 n1) as [t' n'].
  destruct Hstep as (evs1 & Htr1 & Hall1 & Hres1).
  destruct IH as (evs2 & Htr2 & Hall2 & Hres2).
  exists (evs1 ++ evs2). split; [by rewrite Htr2, Htr1, app_assoc|].
  split; [|auto]. rewrite set_configs_app. by apply Forall_app.
Qed.

(** X5: whatever happens around the watch task, every configuration it
    hands to [SetConfig] has the built-in local domains and exactly one
    address under every FQDN; a resolver that held such a configuration
    holds one afterwards. *)
Theorem watch_loop_publishes_well_formed sched t n :
  let '(t', n') := watch_loop sched t n in
  Forall wf_config (set_configs (new_events n n')) /\
  (wf_config (res n) -> wf_config (res n')).
Proof.
  pose proof (watch_loop_wf sched t n) as H.
  destruct (watch_loop sched t n) as [t' n'].
  destruct H as (evs & Htr & Hall & Hres).
  by rewrite (new_events_trace n n' evs Htr).
Qed.

(** A state and an order leave the reload one error to return. *)
Lemma Reloaded_err_fun r n err c evs err' c' evs' :
  Reloaded r n err c evs -> Reloaded r n err' c' evs' -> err = err'.
Proof.
  intros H H'. destruct H; inversion H'; subst;
    repeat match goal with
           | H1 : ?x = _, H2 : ?x = _ |- _ => rewrite H1 in H2; simplify_eq
           end;
    try done; simpl in *; lia.
Qed.

(** X6: a pass of the watch loop that received a signal does not leave the
    loop and ends with the line of success, also when its reload failed and
    it called [cancelF]: the failure branch has no [return]. *)
Theorem signalled_pass_ends_with_success_line r n :
  chan_recv (configWatcher n) <> None ->
  let '(t, n') := watch_iter (SelConfig r) n in
  t = Running /\
  last (new_events n n') = Some (EvLog LogUpdated) /\
  (fst (updateResolverConfig r n) <> None ->
   EvCancel ∈ new_events n n' /\ ctx_done n' = true).
Proof.
  intros Hrecv.
  destruct (chan_recv (configWatcher n)) as [[[msg ok] ch]|] eqn:Hch; [|done].
  pose proof (watch_iter_config r n msg ok ch Hch) as (err & c & evs & HR & ->).
  rewrite new_events_app. split; [done|].
  change (EvLog LogAttempting :: EvReadConfig :: evs ++ iter_tail err)
    with ([EvLog LogAttempting; EvReadConfig] ++ evs ++ iter_tail err).
  split.
  { rewrite !last_app. by destruct err. }
  destruct (updateResolverConfig_Reloaded r n) as (err' & c' & evs' & HR' & ->).
  cbn [fst]. intros Herr'.
  assert (err <> None) as Herr
    by (by rewrite (Reloaded_err_fun _ _ _ _ _ _ _ _ HR HR')).
  destruct err as [e|]; [|done]. split; [|done].
  rewrite !elem_of_app. right. right. simpl. set_solver.
Qed.

(** * More of the code: the start-up of [main], its reader and its file
    watch *)

Lemma main_start_Reloaded r resolve_err listen_err n :
  exists err c evs,
    Reloaded r n err c evs /\
    main_start r resolve_err listen_err n =
      (snd (start_tail err resolve_err listen_err),
       mkNS (configReader n) (configWatcher n) c (S (reads n)) (ctx_done n)
            (trace n ++ EvLog LogSettingInitial :: EvReadConfig :: evs
                     ++ fst (start_tail err resolve_err listen_err))).
Proof.
  unfold main_start, bind.
  destruct (run_Reloaded r n) as (err & c & evs & HR & ->).
  exists err, c, evs. split; [done|].
  unfold log_Fatalf, bind, logf, emit, ret.
  destruct err as [e|]; simpl.
  { by rewrite app_nil_r, <- app_assoc. }
  destruct resolve_err as [e|], listen_err as [e'|]; simpl;
    repeat rewrite <- app_assoc; simpl; repeat rewrite <- app_assoc; done.
Qed.

Lemma Reloaded_read_error r n b e err c evs :
  Reloaded r n err c evs ->
  configReader n (reads n) = (b, Some e) ->
  err = Some e /\ c = res n /\ evs = [EvLog (LogErrReading e)].
Proof.
  intros HR Hread.
  inversion HR as [b' e' Heq| b' Heq | b' ? ? Heq | b' ? ? ? ? Heq | b' ? ? Heq];
    rewrite Heq in Hread; by simplify_eq.
Qed.

(** X7: when [os.ReadFile] fails because the file does not exist, the
    reader of [main] returns no bytes and no error, and the start-up goes
    through: [SetConfig] is not called, the resolver keeps what it held,
    the watch task is started and the listener is created. *)
Theorem missing_file_starts_with_nothing_applied IsNotExist r n contents e :
  configReader n (reads n) = fileConfigReader IsNotExist (contents, Some e) ->
  IsNotExist e = true ->
  let '(p, n') := main_start r None None n in
  p = ProcServing /\
  set_configs (new_events n n') = [] /\
  res n' = res n /\
  EvSpawnWatch ∈ new_events n n' /\
  EvListenUDP ∈ new_events n n'.
Proof.
  intros Hread Hgone. simpl in Hread. rewrite Hgone in Hread.
  destruct (main_start_Reloaded r None None n) as (err & c & evs & HR & ->).
  destruct (Reloaded_no_bytes r n err c evs HR Hread) as (-> & -> & Hset).
  rewrite new_events_app. simpl start_tail. cbn [fst snd res].
  split; [done|]. split.
  { change (EvLog LogSettingInitial :: EvReadConfig :: evs ++ ?l)
      with ([EvLog LogSettingInitial; EvReadConfig] ++ evs ++ l).
    by rewrite !set_configs_app, Hset. }
  split; [done|].
  split; apply elem_of_cons; right; apply elem_of_cons; right;
    apply elem_of_app; right; set_solver.
Qed.

(** X8: when [os.ReadFile] fails for another reason, the reader of [main]
    returns that error, the reload logs and returns it, and [main] ends in
    [log.Fatalf] with it wrapped by [run]; the resolver keeps what it
    held. *)
Theorem read_error_is_fatal IsNotExist r resolve_err listen_err ins n contents e :
  configReader n (reads n) = fileConfigReader IsNotExist (contents, Some e) ->
  IsNotExist e = false ->
  let '(p, n') := main r resolve_err listen_err ins n in
  p = ProcFatal /\
  new_events n n' =
    [EvLog LogSettingInitial; EvReadConfig; EvLog (LogErrReading e);
     EvFatal (fmt_Errorf "error updating resolver config: %w" e)] /\
  res n' = res n.
Proof.
  intros Hread Hother. simpl in Hread. rewrite Hother in Hread.
  unfold main, bind.
  destruct (main_start_Reloaded r resolve_err listen_err n)
    as (err & c & evs & HR & ->).
  destruct (Reloaded_read_error r n _ e err c evs HR Hread) as (-> & -> & ->).
  simpl. unfold ret. by rewrite new_events_app.
Qed.

(** X11: whenever the main goroutine gets to its serving loop, the first
    reload and the start of the watch task come before the listener is
    created, and before it no goroutine is started for a datagram and
    nothing is written to a sender; after it the main goroutine calls
    neither the reader nor [SetConfig] and writes nothing itself: it starts
    one goroutine, with the buffer and the sender, for every datagram read
    before a read fails. *)
Theorem main_loads_before_listening r resolve_err listen_err ins n :
  let '(p, n') := main r resolve_err listen_err ins n in
  p = ProcServing ->
  exists pre post,
    new_events n n'
      = pre ++ [EvResolveUDPAddr; EvListenUDP; EvLog LogListening] ++ post /\
    count_reads pre = 1 /\
    EvSpawnWatch ∈ pre /\
    gos_of pre = [] /\
    writes_of pre = [] /\
    count_reads post = 0 /\
    set_configs post = [] /\
    writes_of post = [] /\
    gos_of post = map go_of (served ins).
Proof.
  unfold main, bind.
  destruct (main_start_Reloaded r resolve_err listen_err n)
    as (err & c & evs & HR & ->).
  destruct (reload_events_quiet evs (Reloaded_events _ _ _ _ _ HR))
    as (Hreads & Hwrites & _).
  assert (gos_of evs = []) as Hgos.
  { pose proof (Reloaded_events _ _ _ _ _ HR) as Hall. clear -Hall.
    induction evs as [|e evs IH]; [done|]. simpl in Hall.
    apply andb_prop in Hall as [He Hall]. specialize (IH Hall).
    by destruct e. }
  destruct err as [e|]; [done|].
  destruct resolve_err as [e|]; [done|].
  destruct listen_err as [e|]; [done|].
  cbn [start_tail fst snd]. cbv beta.
  match goal with |- context [serve ins ?m] => set (n0 := m) end.
  destruct (serve_starts ins n0) as (post & -> & Hg & Hw & Hr & Hs).
  unfold ret. subst n0. cbn [trace res configReader configWatcher reads ctx_done].
  intros _.
  exists ([EvLog LogSettingInitial; EvReadConfig] ++ evs
            ++ [EvLog LogUpdated; EvSpawnWatch]), post.
  split.
  { apply new_events_trace. cbn [trace].
    repeat rewrite <- app_assoc. simpl. repeat rewrite <- app_assoc. done. }
  split; [by rewrite !count_reads_app, Hreads|].
  split; [rewrite !elem_of_app; right; right; set_solver|].
  split; [by rewrite !gos_of_app, Hgos|].
  split; [by rewrite !writes_of_app, Hwrites|].
  done.
Qed.





End Facts.

(** * Closed examples *)

Lemma invalid_reload_applies_nothing_witness :
  let n := Sample.fresh (Sample.always Sample.bad_ip_config) Sample.no_config in
  valid_range map_to_list /\
  snd (configReader n (reads n)) = None /\
  invalid_input (fst (configReader n (reads n))) /\
  let '(err, n') := updateResolverConfig map_to_list n in
  err <> None /\
  set_configs (new_events n n') = [] /\
  res n' = res n /\
  forall payload add, fst (query payload add n') = fst (query payload add n).
Proof.
  intros n.
  assert (invalid_input (fst (configReader n (reads n)))) as Hbad.
  { split; [done|]. right. exists "bad.ts.net.", ["10.0.0.256"].
    split; by vm_compute. }
  split; [apply valid_range_map_to_list|].
  split; [reflexivity|]. split; [exact Hbad|].
  exact (invalid_reload_applies_nothing map_to_list n
           valid_range_map_to_list eq_refl Hbad).
Defined.

Lemma empty_reload_leaves_resolver_witness :
  let n := Sample.fresh (Sample.always []) Sample.no_config in
  snd (configReader n (reads n)) = None /\
  length (fst (configReader n (reads n))) = 0 /\
  let '(err, n') := updateResolverConfig map_to_list n in
  err = None /\ set_configs (new_events n n') = [] /\ res n' = res n.
Proof.
  intros n. split; [reflexivity|]. split; [reflexivity|].
  exact (empty_reload_leaves_resolver map_to_list n eq_refl eq_refl).
Defined.

(** C2 as stated fails: after a reload of the test's file, a reload that
    finds the file gone returns nil, applies nothing, and the resolver still
    holds the record of [foo.bar.ts.net.]; it does not hold a configuration
    without host records. *)
Lemma empty_reload_keeps_old_hosts :
  let n0 := Sample.fresh (Sample.deleted_after_first Sample.hostConfig)
                         Sample.no_config in
  let n1 := snd (updateResolverConfig map_to_list n0) in
  let out := updateResolverConfig map_to_list n1 in
  configReader n1 (reads n1) = ([], None) /\
  fst out = None /\
  set_configs (new_events n1 (snd out)) = [] /\
  Hosts (res (snd out)) !! "foo.bar.ts.net." = Some [Sample.IPv4 10 20 30 40] /\
  res (snd out) <> mkConfig ∅ tsnetRootDomains.
Proof.
  intros n0 n1 out.
  assert (Hosts (res (snd out)) !! "foo.bar.ts.net."
          = Some [Sample.IPv4 10 20 30 40]) as Hheld by (by vm_compute).
  split; [by vm_compute|]. split; [by vm_compute|].
  split; [by vm_compute|]. split; [exact Hheld|].
  intros Heq.
  apply (f_equal (fun c => Hosts c !! "foo.bar.ts.net.")) in Heq.
  vm_compute in Heq. discriminate Heq.
Qed.

Lemma published_LocalDomains_builtin_witness :
  let n := Sample.fresh (Sample.always Sample.hostConfig) Sample.no_config in
  let out := updateResolverConfig map_to_list n in
  (fst out = None /\
   fst (configReader n (reads n)) <> [] /\
   res (snd out) ∈ set_configs (new_events n (snd out))) /\
  let '(err, n') := updateResolverConfig map_to_list n in
  (forall c, c ∈ set_configs (new_events n n') ->
     LocalDomains c = ["ts.net"; "ts.net."] /\
     LocalDomains c = tsnetRootDomains /\
     LocalDomains c <> []) /\
  (err = None -> fst (configReader n (reads n)) <> [] ->
     set_configs (new_events n n') = [res n']).
Proof.
  intros n out. split.
  - split; [by vm_compute|]. split; [by vm_compute|].
    vm_compute. by left.
  - pose proof (published_LocalDomains_builtin map_to_list n) as H. exact H.
Defined.

Lemma last_address_wins_witness :
  let n := Sample.fresh (Sample.always Sample.two_ips_config) Sample.no_config in
  let b := Sample.two_ips_config in
  let cfg := fst (json_Unmarshal b) in
  (valid_range map_to_list /\
   configReader n (reads n) = (b, None) /\ b <> [] /\
   json_Unmarshal b = (cfg, None) /\
   TSHosts_Hosts cfg !! "a.ts.net." = Some ["1.1.1.1"; "2.2.2.2"] /\
   2 <= length ["1.1.1.1"; "2.2.2.2"] /\
   last ["1.1.1.1"; "2.2.2.2"] = Some "2.2.2.2") /\
  let '(err, n') := updateResolverConfig map_to_list n in
  err = None /\
  set_configs (new_events n n') = [res n'] /\
  Hosts (res n') !! fst (ToFQDN "a.ts.net.") = Some [fst (ParseAddr "2.2.2.2")].
Proof.
  intros n b cfg.
  assert (json_Unmarshal b = (cfg, None)) as Hjson by (by vm_compute).
  assert (TSHosts_Hosts cfg !! "a.ts.net." = Some ["1.1.1.1"; "2.2.2.2"])
    as Hname by (by vm_compute).
  assert (map_to_list (TSHosts_Hosts cfg)
          = [("a.ts.net.", ["1.1.1.1"; "2.2.2.2"])]) as Hlist by (by vm_compute).
  assert (b <> []) as Hb by (by vm_compute).
  split.
  { split; [apply valid_range_map_to_list|]. split; [reflexivity|].
    split; [exact Hb|]. split; [exact Hjson|]. split; [exact Hname|].
    split; [simpl; lia|reflexivity]. }
  pose proof (last_address_wins map_to_list n b cfg "a.ts.net."
                ["1.1.1.1"; "2.2.2.2"] "2.2.2.2"
                valid_range_map_to_list eq_refl Hb Hjson) as H.
  apply H; clear H.
  - apply entries_ok_by_list. rewrite Hlist. by vm_compute.
  - exact Hname.
  - simpl. lia.
  - reflexivity.
  - intros name' ips' Hin _ _.
    apply (lookup_by_list _ _ _ _ Hlist) in Hin.
    apply list_elem_of_singleton in Hin. by injection Hin.
Defined.

(** C3 as stated fails: in the file that gives [a.ts.net] two addresses and
    [a.ts.net.] one, every entry passes the checks; when the range visits
    [a.ts.net] first, the reload succeeds and the FQDN [a.ts.net.] of
    [a.ts.net] maps to the address of the other name, not to the last
    address [2.2.2.2] of its own list. *)
Lemma last_address_lost_to_collision :
  let n := Sample.fresh (Sample.always Sample.collide_config) Sample.no_config in
  let cfg := fst (json_Unmarshal Sample.collide_config) in
  let out := updateResolverConfig rev_range n in
  valid_range rev_range /\
  json_Unmarshal Sample.collide_config = (cfg, None) /\
  rev_range (TSHosts_Hosts cfg)
    = [("a.ts.net", ["1.1.1.1"; "2.2.2.2"]); ("a.ts.net.", ["3.3.3.3"])] /\
  forallb entry_ok (rev_range (TSHosts_Hosts cfg)) = true /\
  fst (ToFQDN "a.ts.net") = "a.ts.net." /\
  fst (ParseAddr "2.2.2.2") = Sample.IPv4 2 2 2 2 /\
  fst out = None /\
  Hosts (res (snd out)) !! "a.ts.net." = Some [Sample.IPv4 3 3 3 3] /\
  Hosts (res (snd out)) !! fst (ToFQDN "a.ts.net")
    <> Some [fst (ParseAddr "2.2.2.2")].
Proof.
  intros n cfg out.
  split; [apply valid_range_rev_range|].
  repeat (split; [by vm_compute|]).
  vm_compute. discriminate.
Qed.

Lemma reload_twice_witness :
  let n := Sample.fresh (Sample.always Sample.hostConfig) Sample.no_config in
  let b := Sample.hostConfig in
  (valid_range map_to_list /\ valid_range rev_range /\
   configReader n (reads n) = (b, None) /\
   configReader n (S (reads n)) = (b, None) /\
   fst (updateResolverConfig map_to_list n) = None /\
   collision_free (TSHosts_Hosts (fst (json_Unmarshal b)))) /\
  let '(err1, n1) := updateResolverConfig map_to_list n in
  let '(err2, n2) := updateResolverConfig rev_range n1 in
  err1 = None ->
  err2 = None /\
  ((b <> [] -> collision_free (TSHosts_Hosts (fst (json_Unmarshal b)))) ->
   set_configs (new_events n1 n2) = set_configs (new_events n n1) /\
   res n2 = res n1 /\
   forall payload add, fst (query payload add n2) = fst (query payload add n1)).
Proof.
  intros n b.
  assert (map_to_list (TSHosts_Hosts (fst (json_Unmarshal b)))
          = [("foo.bar.ts.net.", ["10.20.30.40"])]) as Hlist by (by vm_compute).
  split.
  - split; [apply valid_range_map_to_list|].
    split; [apply valid_range_rev_range|].
    split; [reflexivity|]. split; [reflexivity|].
    split; [by vm_compute|].
    intros name1 ips1 name2 ips2 H1 H2 _ _ _.
    apply (lookup_by_list _ _ _ _ Hlist), list_elem_of_singleton in H1.
    apply (lookup_by_list _ _ _ _ Hlist), list_elem_of_singleton in H2.
    congruence.
  - pose proof (reload_twice map_to_list rev_range n b
                  valid_range_map_to_list valid_range_rev_range
                  eq_refl eq_refl) as H.
    exact H.
Defined.

(** C8 as stated fails: on the file in which [a.ts.net] and [a.ts.net.]
    both have addresses, two reloads of the same bytes both succeed, the
    first visiting [a.ts.net.] first and the second visiting it last; the
    configurations they hand to [SetConfig] differ, and the query for
    [a.ts.net.] is answered with [2.2.2.2] after the first and with
    [3.3.3.3] after the second. *)
Lemma reload_twice_differs_on_collision :
  let n := Sample.fresh (Sample.always Sample.collide_config) Sample.no_config in
  let out1 := updateResolverConfig map_to_list n in
  let out2 := updateResolverConfig rev_range (snd out1) in
  let payload := list_byte_of_string "a.ts.net." in
  let add := (Sample.IPv4 10 40 30 20, 0) in
  valid_range map_to_list /\ valid_range rev_range /\
  configReader n 0 = configReader n 1 /\
  fst out1 = None /\ fst out2 = None /\
  Hosts (res (snd out1)) !! "a.ts.net." = Some [Sample.IPv4 2 2 2 2] /\
  Hosts (res (snd out2)) !! "a.ts.net." = Some [Sample.IPv4 3 3 3 3] /\
  res (snd out2) <> res (snd out1) /\
  set_configs (new_events (snd out1) (snd out2))
    <> set_configs (new_events n (snd out1)) /\
  fst (fst (query payload add (snd out1))) = [x02; x02; x02; x02] /\
  fst (fst (query payload add (snd out2))) = [x03; x03; x03; x03].
Proof.
  intros n out1 out2 payload add.
  split; [apply valid_range_map_to_list|].
  split; [apply valid_range_rev_range|].
  split; [reflexivity|].
  split; [by vm_compute|]. split; [by vm_compute|].
  assert (Hosts (res (snd out1)) !! "a.ts.net." = Some [Sample.IPv4 2 2 2 2])
    as H1 by (by vm_compute).
  assert (Hosts (res (snd out2)) !! "a.ts.net." = Some [Sample.IPv4 3 3 3 3])
    as H2 by (by vm_compute).
  split; [exact H1|]. split; [exact H2|].
  split; [intros Heq; rewrite Heq, H1 in H2; discriminate H2|].
  split; [|split; by vm_compute].
  intros Heq.
  apply (f_equal (fun l => match l with
                           | [c] => Hosts c !! "a.ts.net."
                           | _ => None
                           end)) in Heq.
  vm_compute in Heq. discriminate Heq.
Qed.

Lemma empty_array_leaves_no_record_witness :
  let n := Sample.fresh (Sample.always Sample.empty_array_config) Sample.no_config in
  let b := Sample.empty_array_config in
  let cfg := fst (json_Unmarshal b) in
  let out := updateResolverConfig map_to_list n in
  (valid_range map_to_list /\
   configReader n (reads n) = (b, None) /\ b <> [] /\
   json_Unmarshal b = (cfg, None) /\
   TSHosts_Hosts cfg !! "a.ts.net." = Some [] /\
   Hosts (res (snd out)) !! "b.ts.net." = Some [Sample.IPv4 1 1 1 1]) /\
  let '(err, n') := updateResolverConfig map_to_list n in
  err = None /\
  set_configs (new_events n n') = [res n'] /\
  ((forall name' ips', TSHosts_Hosts cfg !! name' = Some ips' -> ips' <> [] ->
      fst (ToFQDN name') <> fst (ToFQDN "a.ts.net.")) ->
   Hosts (res n') !! fst (ToFQDN "a.ts.net.") = None) /\
  (forall fqdn addrs, Hosts (res n') !! fqdn = Some addrs ->
     exists name' ips' ip,
       TSHosts_Hosts cfg !! name' = Some ips' /\ last ips' = Some ip /\
       ip_ok ip = true /\
       fqdn = fst (ToFQDN name') /\ addrs = [fst (ParseAddr ip)]).
Proof.
  intros n b cfg out.
  assert (json_Unmarshal b = (cfg, None)) as Hjson by (by vm_compute).
  assert (TSHosts_Hosts cfg !! "a.ts.net." = Some []) as Hname by (by vm_compute).
  assert (b <> []) as Hb by (by vm_compute).
  split.
  - split; [apply valid_range_map_to_list|]. split; [reflexivity|].
    split; [exact Hb|]. split; [exact Hjson|]. split; [exact Hname|].
    by vm_compute.
  - pose proof (empty_array_leaves_no_record map_to_list n b cfg "a.ts.net."
                  valid_range_map_to_list eq_refl Hb Hjson) as H.
    apply H; clear H; [|exact Hname].
    apply entries_ok_by_list. by vm_compute.
Defined.

(** C10 as stated fails: the file whose only name [a..b] has an empty
    address array is a raw configuration with a hostname whose array is
    empty, and its reload fails: the name is checked before its addresses
    are looked at. *)
Lemma empty_array_bad_name_rejected :
  let n := Sample.fresh (Sample.always Sample.bad_name_config) Sample.no_config in
  let cfg := fst (json_Unmarshal Sample.bad_name_config) in
  let out := updateResolverConfig map_to_list n in
  json_Unmarshal Sample.bad_name_config = (cfg, None) /\
  TSHosts_Hosts cfg !! "a..b" = Some [] /\
  fst out = Some "is not a valid DNS label" /\
  fst out <> None /\
  set_configs (new_events n (snd out)) = [] /\
  res (snd out) = res n.
Proof.
  intros n cfg out. repeat (split; [by vm_compute|]). by vm_compute.
Qed.

Lemma bad_ip_config_invalid : invalid_input Sample.bad_ip_config.
Proof.
  split; [by vm_compute|]. right. exists "bad.ts.net.", ["10.0.0.256"].
  split; by vm_compute.
Qed.


Lemma failed_reload_cancels_witness :
  let n := Sample.watching (Sample.always Sample.bad_ip_config)
             (ChOpen ["config update received"]) Sample.no_config false in
  (valid_range map_to_list /\
   chan_recv (configWatcher n) <> None /\
   reload_fails n) /\
  let '(t, n') := watch_iter (SelConfig map_to_list) n in
  EvCancel ∈ new_events n n' /\
  ctx_done n' = true /\
  count_reads (new_events n n') = 1 /\
  set_configs (new_events n n') = [] /\
  res n' = res n /\
  fst (watch_iter SelDone n') = Exited.
Proof.
  intros n.
  assert (reload_fails n) as Hfails by (right; apply bad_ip_config_invalid).
  assert (chan_recv (configWatcher n) <> None) as Hrecv by done.
  split; [split; [apply valid_range_map_to_list|by split]|].
  pose proof (failed_reload_cancels map_to_list n
                valid_range_map_to_list Hrecv Hfails) as H.
  exact H.
Defined.

Lemma query_answer_always_written_witness :
  let n := snd (updateResolverConfig map_to_list
                  (Sample.fresh (Sample.always Sample.hostConfig) Sample.no_config)) in
  let d := Sample.asking "unknown.ts.net." in
  let ins := [Sample.asking "foo.bar.ts.net."; d] in
  let payload := dg_payload d in
  let add := UDPAddr_AddrPort (dg_addr d) in
  (res_Query (res n) payload "udp" add = ([], Some "no such host") /\
   answer (res n) (Sample.asking "foo.bar.ts.net.")
     = ([x0a; x14; x1e; x28], (Sample.IPv4 10 40 30 20, 0)) /\
   length (served ins) = 2) /\
  query payload add n = (res_Query (res n) payload "udp" add, n) /\
  (let '(_, n') := handle d n in
   writes_of (new_events n n') = [answer (res n) d] /\
   (forall e, snd (res_Query (res n) (dg_payload d) "udp"
                     (UDPAddr_AddrPort (dg_addr d))) = Some e ->
      EvLog (LogErrQuerying e) ∈ new_events n n' /\
      EvWriteToUDP (fst (answer (res n) d)) (dg_addr d) ∈ new_events n n')) /\
  (let '(_, n') := serve ins n in
   gos_of (new_events n n') = map go_of (served ins) /\
   writes_of (new_events n n') = [] /\
   res n' = res n).
Proof.
  intros n d ins payload add.
  split; [split; [by vm_compute|split; [by vm_compute|reflexivity]]|].
  pose proof (query_answer_always_written payload add d ins n) as H.
  exact H.
Defined.

Lemma watch_task_exits_only_on_done_witness :
  let n := Sample.watching (Sample.always Sample.hostConfig) ChClosed
             Sample.no_config true in
  let sched := Sample.tries [false; true] in
  (fst (watch_loop sched Running n) = Exited /\
   ctx_done n = true /\ configWatcher n = ChClosed) /\
  (let '(t, n') := watch_loop sched Running n in
   t = Exited -> TaskSelect SelDone ∈ sched /\ ctx_done n' = true) /\
  (ctx_done n = true ->
   fst (watch_step (TaskSelect SelDone) Running n) = Exited) /\
  (forall r, configWatcher n = ChClosed ->
   let '(t1, n1) := watch_step (TaskSelect (SelConfig r)) Running n in
   t1 = Running /\ configWatcher n1 = ChClosed /\
   count_reads (new_events n n1) = 1).
Proof.
  intros n sched.
  split; [split; [by vm_compute|by split]|].
  pose proof (watch_task_exits_only_on_done sched n) as H.
  exact H.
Defined.

(** The test's file passes the reload, whatever the state it is read in. *)
Lemma hostConfig_reloads n err c evs :
  configReader n (reads n) = (Sample.hostConfig, None) ->
  Reloaded map_to_list n err c evs -> err = None.
Proof.
  intros Hread HR.
  assert (json_Unmarshal Sample.hostConfig
          = (fst (json_Unmarshal Sample.hostConfig), None)) as Hjson
    by (by vm_compute).
  assert (Sample.hostConfig <> []) as Hb by (by vm_compute).
  refine (proj1 (Reloaded_valid map_to_list n _ _ err c evs
                   valid_range_map_to_list HR Hread Hb Hjson _)).
  apply entries_ok_by_list. by vm_compute.
Qed.

(** With the signal channel closed and the context live, no select ends
    the watch task: the [ctx.Done()] case is not ready, and every receive
    from the closed channel reloads and loops. *)
Lemma closed_channel_loop picks : forall n,
  configReader n = Sample.always Sample.hostConfig ->
  configWatcher n = ChClosed -> ctx_done n = false ->
  let out := watch_loop (Sample.tries picks) Running n in
  fst out = Running /\
  reads (snd out) = reads n + length (List.filter negb picks) /\
  configWatcher (snd out) = ChClosed /\
  ctx_done (snd out) = false.
Proof.
  induction picks as [|pick picks IH]; intros n Hreader Hclosed Hlive.
  { simpl. by rewrite Nat.add_0_r. }
  cbn [Sample.tries map watch_loop]. unfold bind. cbn [watch_step].
  destruct pick.
  - unfold watch_iter. rewrite Hlive.
    exact (IH n Hreader Hclosed Hlive).
  - assert (chan_recv (configWatcher n) = Some ("", false, ChClosed)) as Hch
      by (by rewrite Hclosed).
    destruct (watch_iter_config map_to_list n _ _ _ Hch)
      as (err & c & evs & HR & ->).
    assert (err = None) as ->.
    { apply (hostConfig_reloads n err c evs); [|done]. by rewrite Hreader. }
    match goal with |- context [watch_loop _ _ ?m] => set (n1 := m) end.
    destruct (IH n1 Hreader eq_refl Hlive) as (Hrun & Hreads & Hch' & Hlive').
    fold (Sample.tries picks).
    split; [done|]. split; [|done].
    rewrite Hreads. simpl. lia.
Qed.

(** C9 as stated fails: with the signal channel closed and the context not
    cancelled, whatever cases the selects try and however many, the watch
    task is still running, and it has reloaded once for every receive from
    the closed channel. *)
Lemma closed_channel_keeps_reloading :
  let n := Sample.watching (Sample.always Sample.hostConfig) ChClosed
             Sample.no_config false in
  configWatcher n = ChClosed /\
  reads (snd (watch_loop (Sample.tries [false; true; false; false]) Running n)) = 3 /\
  forall picks,
    let out := watch_loop (Sample.tries picks) Running n in
    fst out = Running /\
    reads (snd out) = length (List.filter negb picks) /\
    configWatcher (snd out) = ChClosed.
Proof.
  intros n. split; [done|]. split; [by vm_compute|]. intros picks.
  destruct (closed_channel_loop picks n eq_refl eq_refl eq_refl)
    as (Hrun & Hreads & Hch & _).
  by repeat split.
Qed.

(** * Closed examples for the rest of the code *)

Lemma published_table_names_witness :
  let n := Sample.fresh (Sample.always Sample.empty_array_config) Sample.no_config in
  let b := Sample.empty_array_config in
  let cfg := fst (json_Unmarshal b) in
  (valid_range map_to_list /\
   configReader n (reads n) = (b, None) /\ b <> [] /\
   json_Unmarshal b = (cfg, None) /\
   fst (updateResolverConfig map_to_list n) = None) /\
  let '(err, n') := updateResolverConfig map_to_list n in
  err = None ->
  forall fqdn, is_Some (Hosts (res n') !! fqdn) <-> names_of cfg fqdn.
Proof.
  intros n b cfg.
  assert (json_Unmarshal b = (cfg, None)) as Hjson by (by vm_compute).
  assert (b <> []) as Hb by (by vm_compute).
  split.
  - split; [apply valid_range_map_to_list|]. split; [reflexivity|].
    split; [exact Hb|]. split; [exact Hjson|]. by vm_compute.
  - pose proof (published_table_names map_to_list n b cfg
                  valid_range_map_to_list eq_refl Hb Hjson) as H.
    exact H.
Defined.

Lemma reload_outcome_order_independent_witness :
  let n := Sample.fresh (Sample.always Sample.collide_config) Sample.no_config in
  (valid_range map_to_list /\ valid_range rev_range) /\
  let '(err1, n1) := updateResolverConfig map_to_list n in
  let '(err2, n2) := updateResolverConfig rev_range n in
  (err1 = None <-> err2 = None) /\
  forall fqdn,
    is_Some (Hosts (res n1) !! fqdn) <-> is_Some (Hosts (res n2) !! fqdn).
Proof.
  intros n.
  split; [split; [apply valid_range_map_to_list|apply valid_range_rev_range]|].
  pose proof (reload_outcome_order_independent map_to_list rev_range n
                valid_range_map_to_list valid_range_rev_range) as H.
  exact H.
Defined.

Lemma signalled_reload_replaces_table_witness :
  let n := Sample.fresh
             (Sample.replaced_after_first Sample.hostConfig Sample.newHostConfig)
             Sample.no_config in
  let b := Sample.newHostConfig in
  let cfg := fst (json_Unmarshal b) in
  (valid_range rev_range /\
   configWatcher n = ChOpen [] /\
   configReader n (S (reads n)) = (b, None) /\ b <> [] /\
   json_Unmarshal b = (cfg, None) /\
   fst (run map_to_list n) = None) /\
  let '(err, n1) := run map_to_list n in
  let '(t, n2) :=
    watch_loop [EnvSend "config update"; TaskSelect (SelConfig rev_range)]
      Running n1 in
  err = None ->
  t = Running /\
  ctx_done n2 = ctx_done n /\
  configWatcher n2 = ChOpen [] /\
  reads n2 = S (S (reads n)) /\
  set_configs (new_events n1 n2) = [res n2] /\
  LocalDomains (res n2) = tsnetRootDomains /\
  forall fqdn, is_Some (Hosts (res n2) !! fqdn) <-> names_of cfg fqdn.
Proof.
  intros n b cfg.
  assert (json_Unmarshal b = (cfg, None)) as Hjson by (by vm_compute).
  assert (b <> []) as Hb by (by vm_compute).
  split.
  - split; [apply valid_range_rev_range|]. split; [reflexivity|].
    split; [reflexivity|]. split; [exact Hb|]. split; [exact Hjson|].
    by vm_compute.
  - pose proof (signalled_reload_replaces_table map_to_list rev_range
                  "config update" n b cfg valid_range_rev_range
                  eq_refl eq_refl Hb Hjson) as H.
    apply H. apply entries_ok_by_list. by vm_compute.
Defined.

Lemma reloads_consume_signals_witness :
  let n := Sample.watching (Sample.always Sample.hostConfig)
             (ChOpen ["first"]) Sample.no_config false in
  let sched := [TaskSelect (SelConfig map_to_list);
                TaskSelect (SelConfig map_to_list);
                EnvSend "second";
                TaskSelect (SelConfig map_to_list);
                TaskSelect SelDone] in
  (configWatcher n <> ChClosed /\ (EnvClose ∉ sched) /\
   reads (snd (watch_loop sched Running n)) = 2) /\
  let '(t', n') := watch_loop sched Running n in
  configWatcher n' <> ChClosed /\
  reads n' + chan_pending (configWatcher n')
    = reads n + chan_pending (configWatcher n) + count_sends sched.
Proof.
  intros n sched.
  assert (EnvClose ∉ sched) as Hnoclose.
  { unfold sched. rewrite !not_elem_of_cons.
    repeat split; try discriminate. apply not_elem_of_nil. }
  assert (configWatcher n <> ChClosed) as Hopen by discriminate.
  split; [split; [exact Hopen|split; [exact Hnoclose|by vm_compute]]|].
  pose proof (reloads_consume_signals sched Running n Hopen Hnoclose) as H.
  exact H.
Defined.

Lemma watch_loop_publishes_well_formed_witness :
  let n := Sample.watching (Sample.always Sample.hostConfig)
             (ChOpen ["first"]) (mkConfig ∅ tsnetRootDomains) false in
  let sched := [TaskSelect (SelConfig map_to_list); EnvClose;
                TaskSelect (SelConfig rev_range)] in
  (wf_config (res n) /\
   length (set_configs (new_events n (snd (watch_loop sched Running n)))) = 2) /\
  let '(t', n') := watch_loop sched Running n in
  Forall wf_config (set_configs (new_events n n')) /\
  (wf_config (res n) -> wf_config (res n')).
Proof.
  intros n sched. split.
  - split; [|by vm_compute]. split; [reflexivity|].
    intros fqdn addrs Hl. simpl in Hl. by rewrite lookup_empty in Hl.
  - pose proof (watch_loop_publishes_well_formed sched Running n) as H.
    exact H.
Defined.

Lemma signalled_pass_ends_with_success_line_witness :
  let n := Sample.watching (Sample.always Sample.bad_ip_config)
             (ChOpen ["config update received"]) Sample.no_config false in
  (chan_recv (configWatcher n) <> None /\
   fst (updateResolverConfig map_to_list n) <> None) /\
  let '(t, n') := watch_iter (SelConfig map_to_list) n in
  t = Running /\
  last (new_events n n') = Some (EvLog LogUpdated) /\
  (fst (updateResolverConfig map_to_list n) <> None ->
   EvCancel ∈ new_events n n' /\ ctx_done n' = true).
Proof.
  intros n.
  assert (chan_recv (configWatcher n) <> None) as Hrecv by discriminate.
  split; [split; [exact Hrecv|by vm_compute]|].
  pose proof (signalled_pass_ends_with_success_line map_to_list n Hrecv) as H.
  exact H.
Defined.

Lemma missing_file_starts_with_nothing_applied_witness :
  let e := "no such file or directory" in
  let n := Sample.fresh (Sample.file_reader ([], Some e)) Sample.no_config in
  (configReader n (reads n) = fileConfigReader Sample.IsNotExist ([], Some e) /\
   Sample.IsNotExist e = true) /\
  let '(p, n') := main_start map_to_list None None n in
  p = ProcServing /\
  set_configs (new_events n n') = [] /\
  res n' = res n /\
  EvSpawnWatch ∈ new_events n n' /\
  EvListenUDP ∈ new_events n n'.
Proof.
  intros e n. split; [split; reflexivity|].
  pose proof (missing_file_starts_with_nothing_applied Sample.IsNotExist
                map_to_list n [] e eq_refl eq_refl) as H.
  exact H.
Defined.

Lemma read_error_is_fatal_witness :
  let e := "permission denied" in
  let n := Sample.fresh (Sample.file_reader ([], Some e)) Sample.no_config in
  let ins := [Sample.asking "foo.bar.ts.net."] in
  (configReader n (reads n) = fileConfigReader Sample.IsNotExist ([], Some e) /\
   Sample.IsNotExist e = false) /\
  let '(p, n') := main map_to_list None None ins n in
  p = ProcFatal /\
  new_events n n' =
    [EvLog LogSettingInitial; EvReadConfig; EvLog (LogErrReading e);
     EvFatal (fmt_Errorf "error updating resolver config: %w" e)] /\
  res n' = res n.
Proof.
  intros e n ins. split; [split; reflexivity|].
  pose proof (read_error_is_fatal Sample.IsNotExist map_to_list None None ins
                n [] e eq_refl eq_refl) as H.
  exact H.
Defined.

Lemma main_loads_before_listening_witness :
  let n := Sample.fresh (Sample.always Sample.hostConfig) Sample.no_config in
  let ins := [Sample.asking "foo.bar.ts.net."] in
  fst (main map_to_list None None ins n) = ProcServing /\
  let '(p, n') := main map_to_list None None ins n in
  p = ProcServing ->
  exists pre post,
    new_events n n'
      = pre ++ [EvResolveUDPAddr; EvListenUDP; EvLog LogListening] ++ post /\
    count_reads pre = 1 /\
    EvSpawnWatch ∈ pre /\
    gos_of pre = [] /\
    writes_of pre = [] /\
    count_reads post = 0 /\
    set_configs post = [] /\
    writes_of post = [] /\
    gos_of post = map go_of (served ins).
Proof.
  intros n ins. split; [by vm_compute|].
  pose proof (main_loads_before_listening map_to_list None None ins n) as H.
  exact H.
Defined.

